(** * extract_stackoverflow.py: paginated collection, batch resolution, CSV rows

    A shallow embedding of the script [extract_stackoverflow.py].  The script
    is one straight-line program with two loops that talk to the Stack
    Exchange API and one loop that writes a CSV file:

    - step 1 (lines 18-97): a [while True] loop that pages through the
      questions tagged [nlp], newest first, using the oldest creation date
      seen so far as a cursor ([marker]);
    - step 2 (lines 103-160): a [for] loop over slices of at most 100
      accepted-answer ids that fetches the answer bodies;
    - step 3 (lines 171-199): one CSV row per collected question.

    The network is the only source of non-determinism.  It is modelled as a
    stream of responses: the [n]-th call of [requests.get] made by the
    program returns [srv n].  Everything the program does that can be
    observed from outside (requests, sleeps, prints) is recorded in a trace
    of events; the CSV file is the list of rows written to it.

    Modelling conventions:
    - Python integers are [Z]; lengths and counters that come from [len] or
      count iterations are [nat];
    - a JSON object is modelled by the keys the script looks up in it, each
      one optional; the values have the types the API documents for them;
    - an exception that no [try] of the script catches ends the whole
      program ([Raise]); [exit()] ends it too ([Exited]);
    - a string is a sequence of characters below U+0100, one [ascii] for
      each; among these the decimal digits of Unicode, which [\d] and
      [int] accept, are [0] to [9];
    - [time.sleep] is an event when it returns; it raises [ValueError] on a
      negative number of seconds and [OverflowError] on more seconds than
      fit CPython's clock (signed 64-bit nanoseconds), and [int] raises
      [ValueError] on more digits than CPython converts (4300 by default);
      each is modelled where the script calls them, inside a [try] or
      not. *)

From Stdlib Require Import ZArith Ascii String List Sorted Lia.
From stdpp Require Import base option list sorting gmap strings fin_maps.
Import ListNotations.

Local Open Scope Z_scope.

(** ** JSON values as the script reads them *)

(** A JSON object of an [items] array.  A question carries [question_id],
    [creation_date], [title], [body], [tags], [is_answered] and, when it has
    one, [accepted_answer_id]; an answer carries [answer_id] and [body]. *)
Record jobj : Type := JObj {
  question_id : option Z;
  creation_date : option Z;
  accepted_answer_id : option Z;
  answer_id : option Z;
  title : option string;
  body : option string;
  tags : option (list string);
  is_answered : option bool
}.

(** The common wrapper object of the API: [items], [backoff], and on errors
    [error_name] and [error_message]. *)
Record envelope : Type := Envelope {
  items : option (list jobj);
  backoff : option Z;
  error_name : option string;
  error_message : option string
}.

(** What [response.json()] does: it raises on a body that is not JSON, and
    otherwise returns the decoded value, which is an object or is not. *)
Inductive json : Type :=
| JsonInvalid
| JsonNotObject
| JsonObject (e : envelope).

Record response : Type := Response {
  status_code : Z;
  json_of : json
}.

(** The [n]-th call of [requests.get] of a run returns [srv n]. *)
Definition server : Type := nat → response.

#[global] Instance jobj_eq_dec : EqDecision jobj.
Proof. solve_decision. Defined.

(** ** Requests, sleeps and prints *)

(** Configuration (lines 11-13): no API key. *)
Definition API_KEY : string := "".

(** The [params] dictionary of the questions request (lines 25-37). *)
Record qparams : Type := QParams {
  q_order : string;
  q_sort : string;
  q_tagged : string;
  q_site : string;
  q_pagesize : Z;
  q_filter : string;
  q_key : option string;
  q_max : option Z
}.

(** The [answer_params] dictionary of the answers request (lines 113-119). *)
Record aparams : Type := AParams {
  a_site : string;
  a_pagesize : Z;
  a_filter : string;
  a_key : option string
}.

(** A call of [requests.get]: on the questions URL with its parameters, or
    on the answers URL formatted with the ids of the batch (line 112: the
    ids joined by [;]) with its parameters. *)
Inductive request : Type :=
| GetQuestions (params : qparams)
| GetAnswers (batch_ids : list Z) (answer_params : aparams).

(** The argument of [time.sleep]: a whole number of seconds, or the fixed
    [0.5]. *)
Inductive duration : Type :=
| Seconds (n : Z)
| HalfSecond.

(** One constructor per [print] of the script, with the values it shows. *)
Inductive message : Type :=
| MsgRetrievingQuestions                       (* line 22 *)
| MsgBatch (batch_num : nat) (params : qparams) (* line 39 *)
| MsgThrottled (wait_time : Z)                 (* line 49 *)
| MsgThrottleNoParse                           (* line 53 *)
| MsgErrorStatus (status : Z)                  (* lines 57-58 *)
| MsgErrorProcessing                           (* line 61 *)
| MsgErrorJson                                 (* line 67 *)
| MsgRetrieved (n : nat)                       (* line 71 *)
| MsgNoMore                                    (* line 73 *)
| MsgDuplicateMarker                           (* line 81 *)
| MsgBackoff (seconds : Z)                     (* line 89 *)
| MsgTotal (n : nat)                           (* line 94 *)
| MsgNoQuestions                               (* line 96 *)
| MsgRetrievingAnswers                         (* line 107 *)
| MsgFetching (batch_ids : list Z)             (* line 120 *)
| MsgThrottledAnswers (wait_time : Z) (batch_ids : list Z) (* line 130 *)
| MsgThrottleNoParseAnswers                    (* line 134 *)
| MsgErrorStatusAnswers (status : Z) (batch_ids : list Z)  (* lines 138-139 *)
| MsgErrorProcessingAnswers                    (* line 142 *)
| MsgErrorJsonAnswers (batch_ids : list Z)     (* line 148 *)
| MsgBackoffAnswers (seconds : Z)              (* line 155 *)
| MsgFinishedAnswers (n : nat)                 (* line 160 *)
| MsgCsvCreated (n : nat).                     (* line 199 *)

Inductive event : Type :=
| Print (m : message)
| Get (r : request) (resp : response)
| Sleep (d : duration).

(** How the body of a loop ends: a [continue] statement, the end of the
    body, a [break] statement, or an exception that nothing catches. *)
Inductive signal : Type :=
| Continue
| Next
| Break
| Raise.

#[global] Instance signal_eq_dec : EqDecision signal.
Proof. solve_decision. Defined.

(** ** The throttle message: [re.search(r"available in (\d+) seconds", msg)] *)

(** [\d] on a character below U+0100. *)
Definition is_digit (c : ascii) : bool :=
  (48 <=? nat_of_ascii c)%nat && (nat_of_ascii c <=? 57)%nat.

(** The longest run of digits at the start of [s], and what follows it:
    the greedy [\d+]. *)
Fixpoint span_digits (s : string) : list ascii * string :=
  match s with
  | EmptyString => ([], EmptyString)
  | String c rest =>
      if is_digit c
      then let '(ds, r) := span_digits rest in (c :: ds, r)
      else ([], s)
  end.

(** [strip_prefix p s] is what is left of [s] after the literal [p], if [s]
    starts with it. *)
Fixpoint strip_prefix (p s : string) : option string :=
  match p, s with
  | EmptyString, _ => Some s
  | String a p', String b s' =>
      if Ascii.eqb a b then strip_prefix p' s' else None
  | String _ _, EmptyString => None
  end.

(** [int(match.group(1))] on a run of decimal digits. *)
Definition int_of_digits (ds : list ascii) : Z :=
  fold_left (λ acc c, 10 * acc + (Z.of_nat (nat_of_ascii c) - 48)) ds 0.

(** A match of the pattern that starts at the first character of [s].  The
    digits are followed by a space in the pattern, so giving back digits of
    the greedy run never helps: the run is taken whole. *)
Definition match_wait_here (s : string) : option Z :=
  match strip_prefix "available in " s with
  | Some r =>
      let '(ds, r') := span_digits r in
      match ds, strip_prefix " seconds" r' with
      | _ :: _, Some _ => Some (int_of_digits ds)
      | _, _ => None
      end
  | None => None
  end.

(** [re.search]: the leftmost position where the pattern matches. *)
Fixpoint re_search_wait (msg : string) : option Z :=
  match match_wait_here msg with
  | Some wait_time => Some wait_time
  | None =>
      match msg with
      | EmptyString => None
      | String _ rest => re_search_wait rest
      end
  end.

(** [match.group(1)] of a match that starts at the first character of
    [s]: the digits themselves. *)
Definition match_group_here (s : string) : option (list ascii) :=
  match strip_prefix "available in " s with
  | Some r =>
      let '(ds, r') := span_digits r in
      match ds, strip_prefix " seconds" r' with
      | _ :: _, Some _ => Some ds
      | _, _ => None
      end
  | None => None
  end.

(** [match.group(1)] of the leftmost match. *)
Fixpoint re_search_group (msg : string) : option (list ascii) :=
  match match_group_here msg with
  | Some ds => Some ds
  | None =>
      match msg with
      | EmptyString => None
      | String _ rest => re_search_group rest
      end
  end.

(** CPython's default limit on the digits of a decimal string that [int]
    converts ([sys.int_max_str_digits]); leading zeros count. *)
Definition int_max_str_digits : nat := 4300.

(** [int(digits)] for a run of decimal digits: [None] is the [ValueError]
    of a run longer than the limit. *)
Definition py_int (ds : list ascii) : option Z :=
  if (int_max_str_digits <? length ds)%nat then None
  else Some (int_of_digits ds).

(** The most whole seconds [time.sleep] takes: CPython keeps the time in
    signed 64-bit nanoseconds. *)
Definition sleep_max : Z := 9223372036.

(** [time.sleep(n)] returns for these [n]; it raises [ValueError] below
    0 and [OverflowError] above [sleep_max]. *)
Definition sleepable (n : Z) : bool := (0 <=? n) && (n <=? sleep_max).

(** ** Step 1: retrieve all questions (lines 18-97) *)

(** The variables of the first loop. *)
Record cstate : Type := CState {
  all_questions : list jobj;
  marker : option Z;
  batch_num : nat
}.

Definition cstate_init : cstate :=
  {| all_questions := []; marker := None; batch_num := 1 |}.

(** Lines 25-37: the parameters depend on the state through [marker] only;
    [key] is set when [API_KEY] is not empty, [max] when [marker] is set. *)
Definition question_params (marker : option Z) : qparams :=
  {| q_order := "desc";
     q_sort := "creation";
     q_tagged := "nlp";
     q_site := "stackoverflow";
     q_pagesize := 100;
     q_filter := "withbody";
     q_key := if String.eqb API_KEY "" then None else Some API_KEY;
     q_max := match marker with
              | Some m => Some (m - 1)
              | None => None
              end |}.

(** [item["creation_date"] for item in items]: [None] is the [KeyError] of
    the first item without the key. *)
Fixpoint creation_dates (l : list jobj) : option (list Z) :=
  match l with
  | [] => Some []
  | item :: rest =>
      match creation_date item with
      | Some d =>
          match creation_dates rest with
          | Some ds => Some (d :: ds)
          | None => None
          end
      | None => None
      end
  end.

(** [min] of a sequence of integers; it raises on the empty one. *)
Definition py_min (l : list Z) : option Z :=
  match l with
  | [] => None
  | d :: ds => Some (fold_left Z.min ds d)
  end.

(** Line 79. *)
Definition min_creation_date (l : list jobj) : option Z :=
  match creation_dates l with
  | Some ds => py_min ds
  | None => None
  end.

(** [error_data.get("error_name") == "throttle_violation"] *)
Definition is_throttle (error_data : envelope) : bool :=
  match error_name error_data with
  | Some name => String.eqb name "throttle_violation"
  | None => false
  end.

(** One pass through the body of the [while True] loop (lines 25-92) from
    state [st], when the request is answered by [resp]: how the body ends,
    the state it leaves, and what it printed, requested and slept. *)
Definition collector_body (st : cstate) (resp : response)
  : signal * cstate * list event :=
  let params := question_params (marker st) in
  let t0 := [Print (MsgBatch (batch_num st) params);
             Get (GetQuestions params) resp] in
  if negb (status_code resp =? 200) then
    match json_of resp with
    | JsonObject error_data =>
        if is_throttle error_data then
          let msg := default EmptyString (error_message error_data) in
          match re_search_group msg with
          | Some digits =>
              match py_int digits with
              | Some wait_time =>
                  if sleepable wait_time then
                    (Continue, st,
                     t0 ++ [Print (MsgThrottled wait_time);
                            Sleep (Seconds wait_time)])
                  else
                    (Break, st,
                     t0 ++ [Print (MsgThrottled wait_time);
                            Print MsgErrorProcessing])
              | None => (Break, st, t0 ++ [Print MsgErrorProcessing])
              end
          | None =>
              (Continue, st,
               t0 ++ [Print MsgThrottleNoParse; Sleep (Seconds 60)])
          end
        else (Break, st, t0 ++ [Print (MsgErrorStatus (status_code resp))])
    | JsonInvalid | JsonNotObject =>
        (Break, st, t0 ++ [Print MsgErrorProcessing])
    end
  else
    match json_of resp with
    | JsonInvalid => (Break, st, t0 ++ [Print MsgErrorJson])
    | JsonNotObject => (Raise, st, t0)
    | JsonObject data =>
        let page := default [] (items data) in
        let t1 := t0 ++ [Print (MsgRetrieved (length page))] in
        match page with
        | [] => (Break, st, t1 ++ [Print MsgNoMore])
        | _ :: _ =>
            let extended := all_questions st ++ page in
            let st1 := {| all_questions := extended;
                          marker := marker st;
                          batch_num := batch_num st |} in
            match min_creation_date page with
            | None => (Raise, st1, t1)
            | Some new_marker =>
                let stalled := match marker st with
                               | Some m => m <=? new_marker
                               | None => false
                               end in
                if stalled then (Break, st1, t1 ++ [Print MsgDuplicateMarker])
                else
                  let st2 := {| all_questions := extended;
                                marker := Some new_marker;
                                batch_num := S (batch_num st) |} in
                  match backoff data with
                  | Some b =>
                      if sleepable b
                      then (Next, st2,
                            t1 ++ [Print (MsgBackoff b); Sleep (Seconds b)])
                      else (Raise, st2, t1 ++ [Print (MsgBackoff b)])
                  | None => (Next, st2, t1 ++ [Sleep HalfSecond])
                  end
            end
        end
    end.

(** How a stage ended: still looping when the fuel ran out, left its loop
    normally, or was ended by an uncaught exception. *)
Inductive stage_end : Type :=
| Looping
| Completed
| Aborted.

#[global] Instance stage_end_eq_dec : EqDecision stage_end.
Proof. solve_decision. Defined.

(** The result of running a loop: how it ended, the state it left, the
    events in order, and how many responses it consumed. *)
Record run (St : Type) : Type := Run {
  ended : stage_end;
  final : St;
  trace : list event;
  served : nat
}.
Arguments Run {St} _ _ _ _.
Arguments ended {St} _.
Arguments final {St} _.
Arguments trace {St} _.
Arguments served {St} _.

(** The run [r] of the rest of a loop, after a pass that left the events
    [t]. *)
Definition after {St : Type} (t : list event) (r : run St) : run St :=
  Run (ended r) (final r) (t ++ trace r) (served r).

(** The [while True] loop, for at most [fuel] passes, the first of which is
    answered by [srv n].  After [continue] and after the end of the body the
    loop runs the body again from the state it was left in. *)
Fixpoint collector_loop (fuel : nat) (srv : server) (n : nat) (st : cstate)
  : run cstate :=
  match fuel with
  | O => Run Looping st [] n
  | S fuel' =>
      match collector_body st (srv n) with
      | (Continue, st', t) | (Next, st', t) =>
          after t (collector_loop fuel' srv (S n) st')
      | (Break, st', t) => Run Completed st' t (S n)
      | (Raise, st', t) => Run Aborted st' t (S n)
      end
  end.

(** ** Step 2: retrieve accepted answers (lines 103-160) *)

(** A Python [dict] from integers to integers, in insertion order:
    assigning to a key that is present replaces its value in place,
    assigning to a new key appends an entry. *)
Fixpoint dict_set (d : list (Z * Z)) (k v : Z) : list (Z * Z) :=
  match d with
  | [] => [(k, v)]
  | (k', v') :: rest =>
      if k' =? k then (k', v) :: rest else (k', v') :: dict_set rest k v
  end.

(** Line 103, the dict comprehension, continued from the entries [d]: a
    question without [accepted_answer_id] is passed over; one with it but
    without [question_id] raises [KeyError] ([None]). *)
Fixpoint accepted_ids_from (d : list (Z * Z)) (questions : list jobj)
  : option (list (Z * Z)) :=
  match questions with
  | [] => Some d
  | q :: rest =>
      match accepted_answer_id q with
      | None => accepted_ids_from d rest
      | Some a =>
          match question_id q with
          | Some k => accepted_ids_from (dict_set d k a) rest
          | None => None
          end
      end
  end.

Definition accepted_ids (questions : list jobj) : option (list (Z * Z)) :=
  accepted_ids_from [] questions.

(** Line 104: [list(accepted_ids.values())]. *)
Definition dict_values (d : list (Z * Z)) : list Z := map snd d.

(** Line 108. *)
Definition batch_size : nat := 100.

(** [range(0, stop, step)]: count up from [i] by [step] while below
    [stop]. *)
Fixpoint range_from (fuel i stop step : nat) : list nat :=
  match fuel with
  | O => []
  | S fuel' =>
      if (i <? stop)%nat
      then i :: range_from fuel' (i + step)%nat stop step
      else []
  end.

Definition py_range (stop step : nat) : list nat :=
  range_from stop 0%nat stop step.

(** The slice [l[i:j]] for [0 <= i <= j]. *)
Definition slice (l : list Z) (i j : nat) : list Z :=
  firstn (j - i) (skipn i l).

(** Lines 113-119. *)
Definition the_answer_params : aparams :=
  {| a_site := "stackoverflow";
     a_pagesize := 100;
     a_filter := "withbody";
     a_key := if String.eqb API_KEY "" then None else Some API_KEY |}.

(** Lines 151-152: record the body of every returned answer under its
    [answer_id]; an answer without [body] is recorded with the empty string.
    The flag is [false] when an answer without [answer_id] raised
    [KeyError]; the answers before it are already recorded. *)
Fixpoint record_answers (accepted_answers : gmap Z string) (l : list jobj)
  : gmap Z string * bool :=
  match l with
  | [] => (accepted_answers, true)
  | ans :: rest =>
      match answer_id ans with
      | Some k =>
          record_answers
            (<[k := default EmptyString (body ans)]> accepted_answers) rest
      | None => (accepted_answers, false)
      end
  end.

(** One pass through the body of the [for] loop (lines 110-158) for the
    slice [batch_ids], when the request is answered by [resp]. *)
Definition resolver_body (accepted_answers : gmap Z string)
    (batch_ids : list Z) (resp : response)
  : signal * gmap Z string * list event :=
  let t0 := [Print (MsgFetching batch_ids);
             Get (GetAnswers batch_ids the_answer_params) resp] in
  if negb (status_code resp =? 200) then
    match json_of resp with
    | JsonObject error_data =>
        if is_throttle error_data then
          let msg := default EmptyString (error_message error_data) in
          match re_search_group msg with
          | Some digits =>
              match py_int digits with
              | Some wait_time =>
                  if sleepable wait_time then
                    (Continue, accepted_answers,
                     t0 ++ [Print (MsgThrottledAnswers wait_time batch_ids);
                            Sleep (Seconds wait_time)])
                  else
                    (Continue, accepted_answers,
                     t0 ++ [Print (MsgThrottledAnswers wait_time batch_ids);
                            Print MsgErrorProcessingAnswers])
              | None =>
                  (Continue, accepted_answers,
                   t0 ++ [Print MsgErrorProcessingAnswers])
              end
          | None =>
              (Continue, accepted_answers,
               t0 ++ [Print MsgThrottleNoParseAnswers; Sleep (Seconds 60)])
          end
        else
          (Continue, accepted_answers,
           t0 ++ [Print (MsgErrorStatusAnswers (status_code resp) batch_ids)])
    | JsonInvalid | JsonNotObject =>
        (Continue, accepted_answers, t0 ++ [Print MsgErrorProcessingAnswers])
    end
  else
    match json_of resp with
    | JsonInvalid =>
        (Continue, accepted_answers,
         t0 ++ [Print (MsgErrorJsonAnswers batch_ids)])
    | JsonNotObject => (Raise, accepted_answers, t0)
    | JsonObject ans_data =>
        match record_answers accepted_answers (default [] (items ans_data)) with
        | (recorded, false) => (Raise, recorded, t0)
        | (recorded, true) =>
            match backoff ans_data with
            | Some b =>
                if sleepable b
                then (Next, recorded,
                      t0 ++ [Print (MsgBackoffAnswers b); Sleep (Seconds b)])
                else (Raise, recorded, t0 ++ [Print (MsgBackoffAnswers b)])
            | None => (Next, recorded, t0 ++ [Sleep HalfSecond])
            end
        end
    end.

(** The [for] loop over the start indices [starts] of the slices.  After
    [continue] and after the end of the body the loop goes on with the next
    index: nothing in a [for] loop runs a slice again. *)
Fixpoint resolver_loop (srv : server) (n : nat) (accepted_answer_ids : list Z)
    (starts : list nat) (accepted_answers : gmap Z string)
  : run (gmap Z string) :=
  match starts with
  | [] => Run Completed accepted_answers [] n
  | i :: rest =>
      let batch_ids := slice accepted_answer_ids i (i + batch_size) in
      match resolver_body accepted_answers batch_ids (srv n) with
      | (Continue, recorded, t) | (Next, recorded, t) =>
          after t (resolver_loop srv (S n) accepted_answer_ids rest recorded)
      | (Break, recorded, t) => Run Completed recorded t (S n)
      | (Raise, recorded, t) => Run Aborted recorded t (S n)
      end
  end.

(** Lines 104-158 for a given list of ids, from the [n]-th response on. *)
Definition resolver (srv : server) (n : nat) (accepted_answer_ids : list Z)
  : run (gmap Z string) :=
  resolver_loop srv n accepted_answer_ids
    (py_range (length accepted_answer_ids) batch_size) ∅.

(** ** Step 3: write the CSV file (lines 171-199) *)

(** A row as handed to [writer.writerow]: the five columns of
    [csv_fieldnames]. *)
Record row : Type := Row {
  Title : string;
  Description : string;
  Tags : string;
  Accepted_Answer : string;
  is_answered_col : bool
}.

Definition csv_fieldnames : list string :=
  ["Title"; "Description"; "Tags"; "Accepted Answer"; "is_answered"].

(** [sep.join(l)] *)
Fixpoint join (sep : string) (l : list string) : string :=
  match l with
  | [] => EmptyString
  | [s] => s
  | s :: rest => s +:+ sep +:+ join sep rest
  end.

(** Lines 184-197: the row of one question. *)
Definition row_of (accepted_answers : gmap Z string) (q : jobj) : row :=
  {| Title := default EmptyString (title q);
     Description := default EmptyString (body q);
     Tags := join ", " (default [] (tags q));
     Accepted_Answer :=
       match accepted_answer_id q with
       | Some a => default EmptyString (accepted_answers !! a)
       | None => EmptyString
       end;
     is_answered_col := default false (is_answered q) |}.

(** The file after the [with] block: the header, then the rows in the order
    of [all_questions]. *)
Record csv_file : Type := CsvFile {
  header : list string;
  rows : list row
}.

Definition write_csv (questions : list jobj) (accepted_answers : gmap Z string)
  : csv_file :=
  {| header := csv_fieldnames;
     rows := map (row_of accepted_answers) questions |}.

(** ** The whole script *)

(** How the program ended: the collector was still looping when the fuel
    ran out, [exit()] on line 97, an uncaught exception, or the last line. *)
Inductive program_end : Type :=
| StillCollecting
| Exited
| Crashed
| Done.

Record outcome : Type := Outcome {
  how : program_end;
  output : list event;
  csv : option csv_file
}.

Definition main (fuel : nat) (srv : server) : outcome :=
  let c := collector_loop fuel srv 0%nat cstate_init in
  let t1 := Print MsgRetrievingQuestions :: trace c in
  match ended c with
  | Looping => Outcome StillCollecting t1 None
  | Aborted => Outcome Crashed t1 None
  | Completed =>
      let questions := all_questions (final c) in
      let t2 := t1 ++ [Print (MsgTotal (length questions))] in
      match questions with
      | [] => Outcome Exited (t2 ++ [Print MsgNoQuestions]) None
      | _ :: _ =>
          match accepted_ids questions with
          | None => Outcome Crashed t2 None
          | Some d =>
              let r := resolver srv (served c) (dict_values d) in
              let t3 := t2 ++ Print MsgRetrievingAnswers :: trace r in
              match ended r with
              | Aborted => Outcome Crashed t3 None
              | Looping | Completed =>
                  Outcome Done
                    (t3 ++ [Print (MsgFinishedAnswers (size (final r)));
                            Print (MsgCsvCreated (length questions))])
                    (Some (write_csv questions (final r)))
              end
          end
      end
  end.

(** ** Observations on traces *)

(** The ids of an answers request. *)
Definition answer_batch (e : event) : option (list Z) :=
  match e with
  | Get (GetAnswers batch_ids _) _ => Some batch_ids
  | _ => None
  end.

(** The parameters of a questions request. *)
Definition question_request (e : event) : option qparams :=
  match e with
  | Get (GetQuestions params) _ => Some params
  | _ => None
  end.

Definition slept (e : event) : option duration :=
  match e with
  | Sleep d => Some d
  | _ => None
  end.

(** The slices of ids sent to the answers endpoint, in order. *)
Definition answer_batches (t : list event) : list (list Z) := omap answer_batch t.

(** The parameters of the questions requests, in order. *)
Definition question_requests (t : list event) : list qparams :=
  omap question_request t.

(** The arguments of the calls of [time.sleep], in order. *)
Definition sleeps (t : list event) : list duration := omap slept t.

(** The slices the [for] loop of step 2 goes through. *)
Definition batches_of (accepted_answer_ids : list Z) (starts : list nat)
  : list (list Z) :=
  map (λ i, slice accepted_answer_ids i (i + batch_size)) starts.

(** The least [k] with [n <= k * d]. *)
Definition ceil_div (n d : nat) : nat := ((n + d - 1) / d)%nat.

(** ** Kinds of responses *)

(** A rate-limit response: not a success, and an error object whose
    [error_name] is [throttle_violation]; [msg] is its [error_message], the
    empty string when it has none. *)
Definition rate_limited (resp : response) (msg : string) : Prop :=
  status_code resp ≠ 200 ∧
  ∃ e, json_of resp = JsonObject e ∧
       error_name e = Some "throttle_violation"%string ∧
       default EmptyString (error_message e) = msg.

(** Any other failure: not a success and not a rate-limit response (its
    body may be an error object of another name, or no JSON object at all),
    or a success whose body is not JSON. *)
Definition failed (resp : response) : Prop :=
  (status_code resp ≠ 200 ∧ ¬ ∃ msg, rate_limited resp msg) ∨
  (status_code resp = 200 ∧ json_of resp = JsonInvalid).

(** The page of a success response: its [items], none when the key is not
    there. *)
Definition successful_page (resp : response) (page : list jobj) : Prop :=
  status_code resp = 200 ∧
  ∃ data, json_of resp = JsonObject data ∧ default [] (items data) = page.

(** The items of a response when it is a success with an object, else
    none. *)
Definition page_of (resp : response) : list jobj :=
  if status_code resp =? 200 then
    match json_of resp with
    | JsonObject data => default [] (items data)
    | JsonInvalid | JsonNotObject => []
    end
  else [].

(** ** What ends the first loop *)

(** The page came back empty. *)
Definition page_empty (resp : response) : Prop := successful_page resp [].

(** The oldest creation date of the page is not strictly below the cursor
    that was set. *)
Definition cursor_stalled (st : cstate) (resp : response) : Prop :=
  ∃ page new_marker m,
    successful_page resp page ∧
    min_creation_date page = Some new_marker ∧
    marker st = Some m ∧ m ≤ new_marker.

(** The wait of a rate-limit message can be taken: the digits found are
    few enough for [int] and the number is one [time.sleep] takes, or
    nothing is found and the wait is the fixed 60 seconds. *)
Definition waitable (msg : string) : bool :=
  match re_search_group msg with
  | Some digits =>
      match py_int digits with
      | Some wait_time => sleepable wait_time
      | None => false
      end
  | None => true
  end.



(** ** What the cursor relies on *)

(** The server kept to the [max] of the request: every item of the page has
    a creation date, and none is after [max]. *)
Definition within_max (params : qparams) (resp : response) : Prop :=
  ∀ m, q_max params = Some m →
       Forall (λ item, ∃ d, creation_date item = Some d ∧ d ≤ m) (page_of resp).

(** No two items of the page have the same id. *)
Definition distinct_ids (resp : response) : Prop :=
  NoDup (map question_id (page_of resp)).

(** Every questions request of the trace was answered within its [max] and
    without a repeated id. *)
Definition well_served (t : list event) : Prop :=
  ∀ params resp,
    Get (GetQuestions params) resp ∈ t →
    within_max params resp ∧ distinct_ids resp.

(** Items with the same id have the same creation date. *)
Definition dated_by_id (l : list jobj) : Prop :=
  ∀ x y, x ∈ l → y ∈ l →
         question_id x = question_id y → creation_date x = creation_date y.

(** What holds of the variables of the first loop between passes, when the
    server is as above: the ids collected are distinct, and every question
    collected is at least as recent as the cursor; nothing is collected
    before the cursor is set. *)
Definition cursor_inv (st : cstate) : Prop :=
  NoDup (map question_id (all_questions st)) ∧
  match marker st with
  | Some m =>
      Forall (λ item, ∃ d, creation_date item = Some d ∧ m ≤ d)
             (all_questions st)
  | None => all_questions st = []
  end.

(** Distinct questions have distinct accepted answers. *)
Definition accepted_once (l : list jobj) : Prop :=
  ∀ x y a, x ∈ l → y ∈ l →
           accepted_answer_id x = Some a → accepted_answer_id y = Some a →
           question_id x = question_id y.

(** ** The cursor over a run *)

(** The values of [marker] after each page the first loop accepted, in
    order: one for each pass that reaches the end of the body (lines 84-92),
    where [marker] has just been assigned. *)
Fixpoint markers_set (fuel : nat) (srv : server) (n : nat) (st : cstate)
  : list Z :=
  match fuel with
  | O => []
  | S fuel' =>
      match collector_body st (srv n) with
      | (Continue, st', _) => markers_set fuel' srv (S n) st'
      | (Next, st', _) =>
          match marker st' with
          | Some m => m :: markers_set fuel' srv (S n) st'
          | None => markers_set fuel' srv (S n) st'
          end
      | (Break, _, _) | (Raise, _, _) => []
      end
  end.

(** ** Sample data *)

Definition question (id date : Z) (accepted : option Z) : jobj :=
  {| question_id := Some id; creation_date := Some date;
     accepted_answer_id := accepted; answer_id := None;
     title := Some "How to tokenize?"%string; body := Some "<p>text</p>"%string;
     tags := Some ["nlp"%string; "python"%string]; is_answered := Some true |}.

Definition answer (id : Z) (text : option string) : jobj :=
  {| question_id := None; creation_date := None;
     accepted_answer_id := None; answer_id := Some id;
     title := None; body := text; tags := None; is_answered := None |}.

Definition page (l : list jobj) : response :=
  {| status_code := 200;
     json_of := JsonObject {| items := Some l; backoff := None;
                              error_name := None; error_message := None |} |}.

Definition throttled (msg : string) : response :=
  {| status_code := 400;
     json_of := JsonObject {| items := None; backoff := None;
                              error_name := Some "throttle_violation"%string;
                              error_message := Some msg |} |}.

Definition bad_gateway : response :=
  {| status_code := 502; json_of := JsonInvalid |}.

(** A server that answers its first calls with the responses of [l], in
    order, and every later call with an empty page. *)
Definition scripted (l : list response) : server := λ n, nth n l (page []).

(** ** More observations *)

(** The response to a questions request. *)
Definition question_response (e : event) : option response :=
  match e with
  | Get (GetQuestions _) resp => Some resp
  | _ => None
  end.

(** The response to an answers request. *)
Definition answer_response (e : event) : option response :=
  match e with
  | Get (GetAnswers _ _) resp => Some resp
  | _ => None
  end.

(** The responses the first loop received, in order. *)
Definition question_responses (t : list event) : list response :=
  omap question_response t.

(** The responses the second loop received, in order. *)
Definition answer_responses (t : list event) : list response :=
  omap answer_response t.

(** The rhythm of a trace: [true] for a request, [false] for a sleep. *)
Definition beat (e : event) : option bool :=
  match e with
  | Get _ _ => Some true
  | Sleep _ => Some false
  | Print _ => None
  end.

Definition beats (t : list event) : list bool := omap beat t.

(** A decimal number: one digit or more. *)
Definition is_number (ds : list ascii) : Prop :=
  ds ≠ [] ∧ Forall (λ c, is_digit c = true) ds.

(** [x] was created no earlier than [y]. *)
Definition not_older (x y : jobj) : Prop :=
  ∃ dx dy, creation_date x = Some dx ∧ creation_date y = Some dy ∧ dy ≤ dx.

(** Every questions request of the trace was answered within its [max],
    newest first. *)
Definition served_newest_first (t : list event) : Prop :=
  ∀ params resp,
    Get (GetQuestions params) resp ∈ t →
    within_max params resp ∧ StronglySorted not_older (page_of resp).

(** The variables of the first loop between passes, for a server as above:
    the questions collected are newest first, and none is older than the
    cursor. *)
Definition order_inv (st : cstate) : Prop :=
  StronglySorted not_older (all_questions st) ∧
  match marker st with
  | Some m =>
      Forall (λ item, ∃ d, creation_date item = Some d ∧ m ≤ d)
             (all_questions st)
  | None => all_questions st = []
  end.

(** The body stored for a returned answer. *)
Definition answer_body (ans : jobj) : string := default EmptyString (body ans).

(** The cursor is the oldest creation date collected: some collected
    question has it, none is older, and nothing is collected while it is not
    set. *)
Definition oldest_inv (st : cstate) : Prop :=
  match marker st with
  | Some m =>
      (∃ item, item ∈ all_questions st ∧ creation_date item = Some m) ∧
      Forall (λ item, ∃ d, creation_date item = Some d ∧ m ≤ d)
             (all_questions st)
  | None => all_questions st = []
  end.

(** The counts printed by line 160, in order. *)
Definition finished_count (e : event) : option nat :=
  match e with
  | Print (MsgFinishedAnswers n) => Some n
  | _ => None
  end.

Definition finished_counts (t : list event) : list nat := omap finished_count t.

(** * Properties *)

(** ** The advertised wait *)

Lemma re_search_wait_unfold (msg : string) :
  re_search_wait msg =
    match match_wait_here msg with
    | Some wait_time => Some wait_time
    | None =>
        match msg with
        | EmptyString => None
        | String _ rest => re_search_wait rest
        end
    end.
Proof. by destruct msg. Qed.

Lemma strip_prefix_app (p s : string) : strip_prefix p (p +:+ s) = Some s.
Proof.
  induction p as [|a p IH]; simpl; [done|]. by rewrite Ascii.eqb_refl.
Qed.

Lemma span_digits_run (ds : list ascii) (t : string) :
  Forall (λ d, is_digit d = true) ds →
  span_digits t = ([], t) →
  span_digits (string_of_list_ascii ds +:+ t) = (ds, t).
Proof.
  intros Hds Ht. induction Hds as [|d ds Hd _ IH]; simpl; [done|].
  by rewrite Hd, IH.
Qed.

(** A message that starts with the phrase of the API, "available in",
    a decimal number and "seconds", advertises that number. *)
Lemma re_search_wait_advertised (ds : list ascii) (rest : string) :
  ds ≠ [] →
  Forall (λ c, is_digit c = true) ds →
  re_search_wait
    ("available in " +:+ string_of_list_ascii ds +:+ " seconds" +:+ rest)
  = Some (int_of_digits ds).
Proof.
  intros Hne Hds.
  assert (H : match_wait_here
                ("available in " +:+ string_of_list_ascii ds
                 +:+ " seconds" +:+ rest) = Some (int_of_digits ds)).
  { unfold match_wait_here.
    rewrite strip_prefix_app, span_digits_run, strip_prefix_app by done.
    by destruct ds. }
  by rewrite re_search_wait_unfold, H.
Qed.

(** The message the API sends, with text before the phrase. *)
Lemma re_search_wait_api_message :
  re_search_wait
    "too many requests from this IP, more requests available in 5 seconds"
  = Some 5 ∧
  re_search_wait "Violation of backoff parameter" = None ∧
  re_search_wait "available in seconds" = None.
Proof. split_and!; reflexivity. Qed.

(** ** Slicing *)

Lemma ceil_div_spec (n d : nat) :
  (0 < d)%nat →
  (n ≤ ceil_div n d * d)%nat ∧ (ceil_div n d * d < n + d)%nat.
Proof.
  intros Hd. unfold ceil_div.
  pose proof (Nat.div_mod_eq (n + d - 1) d) as E.
  pose proof (Nat.mod_upper_bound (n + d - 1) d ltac:(lia)) as B.
  nia.
Qed.

(** [range] with a positive step is the arithmetic progression it names. *)
Lemma range_from_progression (step : nat) :
  (0 < step)%nat →
  ∀ k fuel i stop,
    (k ≤ fuel)%nat →
    (stop ≤ i + k * step)%nat →
    (i + k * step < stop + step)%nat →
    range_from fuel i stop step = map (λ j, (i + j * step)%nat) (seq 0 k).
Proof.
  intros Hs k. induction k as [|k IH]; intros fuel i stop Hf Hlo Hhi.
  - destruct fuel as [|fuel]; [done|]. simpl.
    destruct (Nat.ltb_spec i stop); [lia|done].
  - destruct fuel as [|fuel]; [lia|]. simpl.
    destruct (Nat.ltb_spec i stop); [|lia].
    rewrite (IH fuel (i + step)%nat stop) by lia.
    f_equal; [lia|].
    rewrite <- seq_shift, map_map.
    apply map_ext. intros j. lia.
Qed.

Lemma py_range_progression (stop step : nat) :
  (0 < step)%nat →
  py_range stop step = map (λ j, (j * step)%nat) (seq 0 (ceil_div stop step)).
Proof.
  intros Hs. unfold py_range.
  destruct (ceil_div_spec stop step Hs) as [Hlo Hhi].
  rewrite (range_from_progression step Hs (ceil_div stop step)); [done| |lia|lia].
  nia.
Qed.

Lemma py_range_length (stop step : nat) :
  (0 < step)%nat → length (py_range stop step) = ceil_div stop step.
Proof.
  intros Hs. rewrite py_range_progression by done.
  by rewrite length_map, length_seq.
Qed.

Lemma slice_length_le (l : list Z) (i : nat) :
  (length (slice l i (i + batch_size)) ≤ batch_size)%nat.
Proof. unfold slice. rewrite length_take. lia. Qed.

(** The first [k] slices, put end to end, are the first [k * batch_size]
    ids. *)
Lemma batches_concat (ids : list Z) (k : nat) :
  concat (batches_of ids (map (λ j, (j * batch_size)%nat) (seq 0 k)))
  = take (k * batch_size) ids.
Proof.
  induction k as [|k IH]; [done|].
  replace (S k * batch_size)%nat with (k * batch_size + batch_size)%nat by lia.
  rewrite seq_S, map_app. unfold batches_of in *.
  rewrite map_app, concat_app, IH. cbn [map concat Nat.add].
  rewrite app_nil_r. unfold slice.
  replace (k * batch_size + batch_size - k * batch_size)%nat
    with batch_size by lia.
  by rewrite take_take_drop.
Qed.

(** ** The loop of step 2 *)

Lemma answer_batches_app (t1 t2 : list event) :
  answer_batches (t1 ++ t2) = answer_batches t1 ++ answer_batches t2.
Proof. apply omap_app. Qed.

(** Whatever the response, a pass of the body sends exactly one request, for
    its slice, and never leaves the loop by [break]. *)
Lemma resolver_body_request (acc : gmap Z string) (b : list Z) (resp : response) :
  ∃ sig acc' t,
    resolver_body acc b resp = (sig, acc', t) ∧
    sig ≠ Break ∧ answer_batches t = [b].
Proof.
  unfold resolver_body.
  repeat case_match; eexists _, _, _; (split; [reflexivity|]); done.
Qed.

(** The requests of the loop are the slices in order, one request per slice
    gone through; a loop that is not cut short goes through all of them. *)
Lemma resolver_loop_batches (srv : server) (ids : list Z) (starts : list nat) :
  ∀ n acc,
    let r := resolver_loop srv n ids starts acc in
    answer_batches (trace r) = take (served r - n) (batches_of ids starts) ∧
    (n ≤ served r ≤ n + length starts)%nat ∧
    ended r ≠ Looping ∧
    (ended r = Completed → served r = (n + length starts)%nat).
Proof.
  induction starts as [|i rest IH]; intros n acc; simpl.
  - split_and!; [by rewrite take_nil|lia|lia|done|lia].
  - destruct (resolver_body_request acc (slice ids i (i + batch_size)) (srv n))
      as (sig & acc' & t & -> & Hsig & Ht).
    specialize (IH (S n) acc').
    destruct IH as (IH1 & IH2 & IH3 & IH4).
    destruct sig; simpl; try done.
    + rewrite answer_batches_app, Ht, IH1.
      replace (served (resolver_loop srv (S n) ids rest acc') - n)%nat
        with (S (served (resolver_loop srv (S n) ids rest acc') - S n)) by lia.
      split_and!; [done|lia|lia|done|]. intros H. apply IH4 in H. lia.
    + rewrite answer_batches_app, Ht, IH1.
      replace (served (resolver_loop srv (S n) ids rest acc') - n)%nat
        with (S (served (resolver_loop srv (S n) ids rest acc') - S n)) by lia.
      split_and!; [done|lia|lia|done|]. intros H. apply IH4 in H. lia.
    + replace (S n - n)%nat with 1%nat by lia.
      split_and!; [by rewrite Ht|lia|lia|done|done].
Qed.

Lemma batches_of_length_le (ids : list Z) (starts : list nat) :
  Forall (λ b, (length b ≤ batch_size)%nat) (batches_of ids starts).
Proof.
  unfold batches_of. apply Forall_map, Forall_forall.
  intros i _. apply slice_length_le.
Qed.

(** C8 (as stated, refuted): 150 ids, and the first reply holds a record
    without [answer_id].  Line 152 is outside every [try]: the exception
    ends the stage after one request, of 100 ids, where [ceil(150 / 100)]
    is 2. *)
Lemma resolver_cut_short_counterexample :
  let ids := map Z.of_nat (seq 1 150) in
  let bare := {| question_id := None; creation_date := None;
                 accepted_answer_id := None; answer_id := None;
                 title := None; body := Some "<p>text</p>"%string;
                 tags := None; is_answered := None |} in
  let r := resolver (scripted [page [bare]]) 0 ids in
  length ids = 150%nat ∧
  ceil_div (length ids) 100 = 2%nat ∧
  ended r = Aborted ∧
  map length (answer_batches (trace r)) = [100%nat] ∧
  length (answer_batches (trace r)) ≠ ceil_div (length ids) 100.
Proof.
  intros ids bare r.
  assert (H : map length (answer_batches (trace r)) = [100%nat])
    by (vm_compute; reflexivity).
  split; [reflexivity|]. split; [reflexivity|].
  split; [vm_compute; reflexivity|]. split; [exact H|].
  apply (f_equal length) in H. rewrite length_map in H. rewrite H.
  vm_compute. discriminate.
Qed.

(** C8 (amended): the resolver never puts more than 100 ids in one
    request.  The [for] loop goes through [ceil(n / 100)] slices of the [n]
    ids, which put end to end are the ids, and sends one request per slice
    it goes through; a resolver stage that runs to its end, not cut short
    by an exception, has sent exactly [ceil(n / 100)] requests.  For 150
    ids these are two, of 100 and of 50 ids. *)
Theorem resolver_requests_chunked (srv : server) (n : nat) (ids : list Z) :
  let r := resolver srv n ids in
  let slices := batches_of ids (py_range (length ids) batch_size) in
  Forall (λ b, (length b ≤ 100)%nat) (answer_batches (trace r)) ∧
  (length ids ≤ ceil_div (length ids) 100 * 100 < length ids + 100)%nat ∧
  length slices = ceil_div (length ids) 100 ∧
  concat slices = ids ∧
  answer_batches (trace r) = take (served r - n) slices ∧
  (length ids = 150%nat → map length slices = [100%nat; 50%nat]) ∧
  (ended r = Completed →
     answer_batches (trace r) = slices ∧
     length (answer_batches (trace r)) = ceil_div (length ids) 100 ∧
     (length ids = 150%nat →
        map length (answer_batches (trace r)) = [100%nat; 50%nat])).
Proof.
  intros r slices. subst r slices. unfold resolver.
  destruct (resolver_loop_batches srv ids
              (py_range (length ids) batch_size) n ∅) as (Hb & Hs & _ & Hc).
  assert (Hpos : (0 < batch_size)%nat) by (unfold batch_size; lia).
  assert (Hlen : length (batches_of ids (py_range (length ids) batch_size))
                 = ceil_div (length ids) 100).
  { unfold batches_of. rewrite length_map. by apply py_range_length. }
  assert (H150 : length ids = 150%nat →
                 map length (batches_of ids (py_range (length ids) batch_size))
                 = [100%nat; 50%nat]).
  { intros H. rewrite H.
    change (py_range 150 batch_size) with [0%nat; 100%nat].
    unfold batches_of, slice. cbn [map].
    rewrite !length_take, !length_drop, H. reflexivity. }
  destruct (ceil_div_spec (length ids) 100 ltac:(lia)) as [Hlo Hhi].
  split_and!.
  - rewrite Hb. apply Forall_take, batches_of_length_le.
  - exact Hlo.
  - exact Hhi.
  - exact Hlen.
  - rewrite py_range_progression, batches_concat by done.
    apply take_ge. unfold batch_size. exact Hlo.
  - exact Hb.
  - exact H150.
  - intros Hend. specialize (Hc Hend).
    rewrite py_range_length in Hc by done.
    change (ceil_div (length ids) batch_size)
      with (ceil_div (length ids) 100) in Hc.
    assert (Hall : answer_batches
                     (trace (resolver_loop srv n ids
                               (py_range (length ids) batch_size) ∅))
                   = batches_of ids (py_range (length ids) batch_size)).
    { rewrite Hb. apply take_ge. rewrite Hlen. lia. }
    rewrite Hall. split; [done|]. split; [exact Hlen|exact H150].
Qed.

(** An instance: 150 ids, every request answered by an empty page. *)
Lemma resolver_requests_chunked_witness :
  let ids := map Z.of_nat (seq 1 150) in
  let r := resolver (scripted []) 0 ids in
  ended r = Completed ∧ length ids = 150%nat ∧
  length (answer_batches (trace r)) = ceil_div (length ids) 100 ∧
  map length (answer_batches (trace r)) = [100%nat; 50%nat].
Proof.
  intros ids r.
  assert (He : ended r = Completed) by (vm_compute; reflexivity).
  assert (Hl : length ids = 150%nat) by reflexivity.
  destruct (resolver_requests_chunked (scripted []) 0 ids)
    as (_ & _ & _ & _ & _ & _ & H).
  destruct (H He) as (_ & H1 & H2).
  split_and!; [exact He|exact Hl|exact H1|exact (H2 Hl)].
Defined.

(** ** The writer *)

(** C7 (as stated, refuted): the question has an accepted answer, and the
    mapping has an entry for it, whose content is the empty string (as
    [record_answers] stores for an answer without [body]); the column is
    empty all the same. *)
Lemma writer_empty_column_counterexample :
  let q := question 1 100 (Some 9) in
  let accepted_answers : gmap Z string := {[ 9 := EmptyString ]} in
  ¬ (Accepted_Answer (row_of accepted_answers q) = EmptyString ↔
     (accepted_answer_id q = None ∨
      ∃ a, accepted_answer_id q = Some a ∧ accepted_answers !! a = None)).
Proof.
  intros q accepted_answers [H _].
  destruct (H eq_refl) as [H1|(a & Ha & Hn)]; [discriminate|].
  injection Ha as <-. vm_compute in Hn. discriminate.
Qed.

(** C7 (amended): the file has the header and one row per collected
    question, in order, and the accepted-answer column of a row is empty
    exactly when its question has no accepted-answer id, or the id is not in
    the mapping, or the mapping holds the empty string for it. *)
Theorem writer_one_row_per_question
    (questions : list jobj) (accepted_answers : gmap Z string) :
  let file := write_csv questions accepted_answers in
  header file = csv_fieldnames ∧
  length (rows file) = length questions ∧
  ∀ (i : nat) (q : jobj),
    questions !! i = Some q →
    ∃ r, rows file !! i = Some r ∧
         r = row_of accepted_answers q ∧
         (Accepted_Answer r = EmptyString ↔
            accepted_answer_id q = None ∨
            ∃ a, accepted_answer_id q = Some a ∧
                 (accepted_answers !! a = None ∨
                  accepted_answers !! a = Some EmptyString)).
Proof.
  simpl. split; [done|]. split; [by rewrite length_map|].
  intros i q Hq. exists (row_of accepted_answers q).
  split; [by rewrite list_lookup_fmap, Hq|]. split; [done|].
  unfold row_of; simpl.
  destruct (accepted_answer_id q) as [a|]; [|naive_solver].
  destruct (accepted_answers !! a) as [s|] eqn:Ha; simpl.
  - split.
    + intros ->. right. exists a. by rewrite Ha; auto.
    + intros [?|(a' & [= <-] & [?|?])]; [done|congruence|congruence].
  - split; [|done]. intros _. right. exists a. rewrite Ha. auto.
Qed.

Lemma writer_one_row_per_question_witness :
  let questions := [question 1 100 (Some 9); question 2 90 None] in
  let accepted_answers : gmap Z string := {[ 9 := "<p>use nltk</p>"%string ]} in
  questions !! 1%nat = Some (question 2 90 None) ∧
  length (rows (write_csv questions accepted_answers)) = 2%nat ∧
  ∃ r, rows (write_csv questions accepted_answers) !! 1%nat = Some r ∧
       Accepted_Answer r = EmptyString.
Proof.
  intros questions accepted_answers.
  destruct (writer_one_row_per_question questions accepted_answers)
    as (_ & Hlen & Hrows).
  destruct (Hrows 1%nat (question 2 90 None) eq_refl) as (r & Hr & _ & Hcol).
  split; [reflexivity|]. split; [exact Hlen|].
  exists r. split; [exact Hr|]. apply Hcol. left. reflexivity.
Defined.

(** ** One pass of either loop, by kind of response *)

Lemma is_throttle_true (e : envelope) :
  is_throttle e = true ↔ error_name e = Some "throttle_violation"%string.
Proof.
  unfold is_throttle. destruct (error_name e) as [name|].
  - rewrite String.eqb_eq. naive_solver.
  - naive_solver.
Qed.

Lemma not_success_test (resp : response) :
  status_code resp ≠ 200 → (status_code resp =? 200) = false.
Proof. intros H. by apply Z.eqb_neq. Qed.






(** A rate-limited pass whose wait cannot be taken: the exception of line
    48 or line 50 is caught on line 60, and the loop is left without a
    sleep. *)
Lemma collector_body_unwaitable (st : cstate) (resp : response) (msg : string) :
  rate_limited resp msg →
  waitable msg = false →
  ∃ t, collector_body st resp = (Break, st, t) ∧
       sleeps t = [] ∧
       question_requests t = [question_params (marker st)] ∧
       last t = Some (Print MsgErrorProcessing).
Proof.
  intros (Hs & e & He & Hn & Hm) Hw. unfold collector_body.
  rewrite (not_success_test _ Hs), He. simpl.
  apply is_throttle_true in Hn. rewrite Hn, Hm.
  unfold waitable in Hw.
  destruct (re_search_group msg) as [ds|]; [|done].
  destruct (py_int ds) as [w|]; [rewrite Hw|]; by eexists.
Qed.



(** A failure that is not a rate limit: the error object is not named
    [throttle_violation], or there is no object to look at. *)
Lemma failed_not_success (resp : response) :
  status_code resp ≠ 200 →
  (¬ ∃ msg, rate_limited resp msg) →
  match json_of resp with
  | JsonObject e => is_throttle e = false
  | JsonInvalid | JsonNotObject => True
  end.
Proof.
  intros Hs Hn. destruct (json_of resp) as [| |e] eqn:He; [done|done|].
  destruct (is_throttle e) eqn:Ht; [|done].
  exfalso. apply Hn. exists (default EmptyString (error_message e)).
  split; [done|]. exists e. by rewrite <- is_throttle_true.
Qed.

Lemma collector_body_failed (st : cstate) (resp : response) :
  failed resp →
  let params := question_params (marker st) in
  ∃ m, collector_body st resp =
         (Break, st,
          [Print (MsgBatch (batch_num st) params);
           Get (GetQuestions params) resp; Print m]) ∧
       m ∈ [MsgErrorStatus (status_code resp); MsgErrorProcessing; MsgErrorJson].
Proof.
  intros [[Hs Hn]|[Hs Hj]]; simpl; unfold collector_body.
  - rewrite (not_success_test _ Hs). simpl.
    pose proof (failed_not_success resp Hs Hn) as H.
    destruct (json_of resp) as [| |e].
    + eexists; split; [reflexivity|set_solver].
    + eexists; split; [reflexivity|set_solver].
    + rewrite H. eexists; split; [reflexivity|set_solver].
  - rewrite Hs, Hj. simpl. eexists; split; [reflexivity|set_solver].
Qed.

Lemma resolver_body_failed (acc : gmap Z string) (b : list Z) (resp : response) :
  failed resp →
  ∃ m, resolver_body acc b resp =
         (Continue, acc,
          [Print (MsgFetching b);
           Get (GetAnswers b the_answer_params) resp; Print m]) ∧
       m ∈ [MsgErrorStatusAnswers (status_code resp) b;
            MsgErrorProcessingAnswers; MsgErrorJsonAnswers b].
Proof.
  intros [[Hs Hn]|[Hs Hj]]; unfold resolver_body.
  - rewrite (not_success_test _ Hs). simpl.
    pose proof (failed_not_success resp Hs Hn) as H.
    destruct (json_of resp) as [| |e].
    + eexists; split; [reflexivity|set_solver].
    + eexists; split; [reflexivity|set_solver].
    + rewrite H. eexists; split; [reflexivity|set_solver].
  - rewrite Hs, Hj. simpl. eexists; split; [reflexivity|set_solver].
Qed.

(** Every pass of the first loop starts by printing its batch line and
    sending the request built from [marker]; it sends no other request. *)
Lemma collector_body_request (st : cstate) (resp : response) :
  let params := question_params (marker st) in
  ∃ sig st' rest,
    collector_body st resp =
      (sig, st',
       Print (MsgBatch (batch_num st) params)
       :: Get (GetQuestions params) resp :: rest) ∧
    question_requests rest = [] ∧ answer_batches rest = [].
Proof.
  simpl. unfold collector_body.
  repeat case_match; eexists _, _, _; (split; [reflexivity|]); done.
Qed.

(** ** Rate limits and failures *)

(** [waitable] in words: the digits found, if any, are at most 4300 and
    their value is at most [sleep_max]. *)
Lemma waitable_spec (msg : string) :
  waitable msg = true ↔
  ∀ digits, re_search_group msg = Some digits →
            (length digits ≤ int_max_str_digits)%nat ∧
            0 ≤ int_of_digits digits ≤ sleep_max.
Proof.
  unfold waitable, py_int, sleepable.
  destruct (re_search_group msg) as [ds|]; [|by split].
  destruct (Nat.ltb_spec int_max_str_digits (length ds)).
  - split; [done|]. intros H'. destruct (H' ds eq_refl). lia.
  - rewrite andb_true_iff, !Z.leb_le. split.
    + intros [? ?] ds' [= <-]. split; [lia|done].
    + intros H'. destruct (H' ds eq_refl) as [_ [? ?]]. done.
Qed.




(** The loops around one pass. *)
Lemma collector_loop_unfold (fuel : nat) (srv : server) (n : nat) (st : cstate) :
  collector_loop (S fuel) srv n st =
    match collector_body st (srv n) with
    | (Continue, st', t) | (Next, st', t) =>
        after t (collector_loop fuel srv (S n) st')
    | (Break, st', t) => Run Completed st' t (S n)
    | (Raise, st', t) => Run Aborted st' t (S n)
    end.
Proof. reflexivity. Qed.

Lemma resolver_loop_unfold (srv : server) (n : nat) (ids : list Z)
    (i : nat) (rest : list nat) (acc : gmap Z string) :
  resolver_loop srv n ids (i :: rest) acc =
    match resolver_body acc (slice ids i (i + batch_size)) (srv n) with
    | (Continue, recorded, t) | (Next, recorded, t) =>
        after t (resolver_loop srv (S n) ids rest recorded)
    | (Break, recorded, t) => Run Completed recorded t (S n)
    | (Raise, recorded, t) => Run Aborted recorded t (S n)
    end.
Proof. reflexivity. Qed.

(** What the program prints and writes once the first loop is left by
    [break]: the number of questions collected so far, and, if it gets to
    its last line, the number of answers recorded and a file with the rows
    of exactly these questions. *)
Lemma main_reports (fuel : nat) (srv : server) :
  let c := collector_loop fuel srv 0%nat cstate_init in
  let o := main fuel srv in
  ended c = Completed →
  Print (MsgTotal (length (all_questions (final c)))) ∈ output o ∧
  (how o = Done →
   ∃ d, accepted_ids (all_questions (final c)) = Some d ∧
        let r := resolver srv (served c) (dict_values d) in
        Print (MsgFinishedAnswers (size (final r))) ∈ output o ∧
        csv o = Some (write_csv (all_questions (final c)) (final r))).
Proof.
  intros c o Hc. subst o. unfold main. fold c. rewrite Hc.
  destruct (all_questions (final c)) as [|q qs] eqn:Hq.
  - simpl. split; [set_solver|done].
  - destruct (accepted_ids (q :: qs)) as [d|] eqn:Hd.
    + destruct (ended (resolver srv (served c) (dict_values d))) eqn:He;
        simpl.
      * split; [set_solver|]. intros _. exists d. split; [done|].
        split; [set_solver|done].
      * split; [set_solver|]. intros _. exists d. split; [done|].
        split; [set_solver|done].
      * split; [set_solver|done].
    + simpl. split; [set_solver|done].
Qed.

(** C6 (as stated, refuted): 101 questions with accepted answers are
    collected; the request for the first slice fails with a 502 and is
    passed over; the reply to the second holds a record without
    [answer_id], and the exception of line 152 ends the program.  The total
    of line 94 was printed, but line 160 is never reached: no count of
    answers is printed and no file is written, so the questions collected
    are lost with the run. *)
Lemma answers_count_lost_counterexample :
  let questions :=
    map (λ i, question (Z.of_nat i) (1000 - Z.of_nat i)
                (Some (5000 + Z.of_nat i))) (seq 1 101) in
  let bare := {| question_id := None; creation_date := None;
                 accepted_answer_id := None; answer_id := None;
                 title := None; body := Some "<p>text</p>"%string;
                 tags := None; is_answered := None |} in
  let srv := scripted [page questions; page []; bad_gateway; page [bare]] in
  let o := main 3 srv in
  failed (srv 2%nat) ∧
  how o = Crashed ∧
  csv o = None ∧
  map length (answer_batches (output o)) = [100%nat; 1%nat] ∧
  Print (MsgTotal 101) ∈ output o ∧
  finished_counts (output o) = [].
Proof.
  intros questions bare srv o.
  split.
  { left. split; [done|]. intros (msg & _ & e & He & _). discriminate. }
  split; [vm_compute; reflexivity|]. split; [vm_compute; reflexivity|].
  split; [vm_compute; reflexivity|]. split; [|vm_compute; reflexivity].
  apply (list_elem_of_lookup_2 _ 9%nat). vm_compute. reflexivity.
Qed.

(** C6 (amended): a failure that is not a rate limit ends the first loop
    by [break] with the questions collected so far untouched, and the
    program goes on from them; in the second loop it ends the pass for the
    current slice only, without a sleep and with the answers recorded so
    far untouched, and the loop goes on with the next slice.  The number of
    questions collected is printed after the first loop; the number of
    answers recorded is printed, and the file of the questions collected
    written, when the program reaches its last line, that is when no
    exception ends it after the first loop. *)
Theorem failure_stops_collector_skips_slice (resp : response) :
  failed resp →
  (∀ (fuel : nat) (srv : server) (n : nat) (st : cstate),
     srv n = resp →
     let r := collector_loop (S fuel) srv n st in
     ended r = Completed ∧ final r = st ∧ served r = S n ∧
     question_requests (trace r) = [question_params (marker st)]) ∧
  (∀ (srv : server) (n : nat) (ids : list Z) (i : nat) (rest : list nat)
     (acc : gmap Z string),
     srv n = resp →
     ∃ t, resolver_loop srv n ids (i :: rest) acc =
            after t (resolver_loop srv (S n) ids rest acc) ∧
          answer_batches t = [slice ids i (i + batch_size)] ∧
          sleeps t = []) ∧
  (∀ (fuel : nat) (srv : server),
     let c := collector_loop fuel srv 0%nat cstate_init in
     let o := main fuel srv in
     ended c = Completed →
     Print (MsgTotal (length (all_questions (final c)))) ∈ output o ∧
     (how o = Done →
      ∃ d, accepted_ids (all_questions (final c)) = Some d ∧
           let r := resolver srv (served c) (dict_values d) in
           Print (MsgFinishedAnswers (size (final r))) ∈ output o ∧
           csv o = Some (write_csv (all_questions (final c)) (final r)))).
Proof.
  intros Hf. split_and!.
  - intros fuel srv n st Hn r. subst r.
    rewrite collector_loop_unfold, Hn.
    destruct (collector_body_failed st resp Hf) as (m & -> & _).
    by simpl.
  - intros srv n ids i rest acc Hn.
    rewrite resolver_loop_unfold, Hn.
    destruct (resolver_body_failed acc (slice ids i (i + batch_size)) resp Hf)
      as (m & -> & _).
    eexists. split; [reflexivity|]. by simpl.
  - apply main_reports.
Qed.

Lemma failure_stops_collector_skips_slice_witness :
  let srv := scripted [page [question 1 100 (Some 9); question 2 90 None];
                       bad_gateway; bad_gateway] in
  let o := main 2 srv in
  failed bad_gateway ∧
  Print (MsgTotal 2) ∈ output o ∧
  ∃ d, accepted_ids [question 1 100 (Some 9); question 2 90 None] = Some d ∧
       Print (MsgFinishedAnswers 0) ∈ output o ∧
       csv o = Some (write_csv [question 1 100 (Some 9); question 2 90 None] ∅).
Proof.
  intros srv o.
  assert (Hf : failed bad_gateway).
  { left. split; [done|]. intros (msg & _ & e & He & _). discriminate. }
  destruct (failure_stops_collector_skips_slice bad_gateway Hf)
    as (_ & _ & Hmain).
  destruct (Hmain 2%nat srv ltac:(vm_compute; reflexivity))
    as (Htotal & Hdone).
  destruct (Hdone ltac:(vm_compute; reflexivity)) as (d & Hd & Hfin & Hcsv).
  split; [exact Hf|]. split; [exact Htotal|].
  exists d. split; [exact Hd|].
  assert (d = [(1, 9)]) as -> by (vm_compute in Hd; congruence).
  split; [exact Hfin|exact Hcsv].
Defined.

(** ** Missing keys *)

Lemma creation_dates_missing (l : list jobj) :
  (∃ item, item ∈ l ∧ creation_date item = None) → creation_dates l = None.
Proof.
  intros (item & Hin & Hnone).
  induction l as [|x l IH]; [by apply elem_of_nil in Hin|].
  simpl. apply elem_of_cons in Hin as [<-|Hin].
  - by rewrite Hnone.
  - rewrite (IH Hin). by destruct (creation_date x).
Qed.

Lemma record_answers_missing (acc : gmap Z string) (l : list jobj) :
  (∃ ans, ans ∈ l ∧ answer_id ans = None) →
  ∃ recorded, record_answers acc l = (recorded, false).
Proof.
  intros (ans & Hin & Hnone). revert acc.
  induction l as [|x l IH]; intros acc; [by apply elem_of_nil in Hin|].
  simpl. apply elem_of_cons in Hin as [<-|Hin].
  - rewrite Hnone. by eexists.
  - destruct (answer_id x); [by apply IH|by eexists].
Qed.

Lemma collector_loop_no_answer_requests
    (fuel : nat) (srv : server) (n : nat) (st : cstate) :
  answer_batches (trace (collector_loop fuel srv n st)) = [].
Proof.
  revert n st. induction fuel as [|fuel IH]; intros n st; [done|].
  rewrite collector_loop_unfold.
  destruct (collector_body_request st (srv n))
    as (sig & st' & rest & -> & _ & Hrest).
  destruct sig; simpl; by rewrite ?answer_batches_app, ?IH, ?Hrest.
Qed.

(** What [main] does when a stage is ended by an exception. *)
Lemma main_collector_aborted (fuel : nat) (srv : server) :
  ended (collector_loop fuel srv 0%nat cstate_init) = Aborted →
  how (main fuel srv) = Crashed ∧ csv (main fuel srv) = None ∧
  answer_batches (output (main fuel srv)) = [].
Proof.
  intros H. unfold main. rewrite H. simpl.
  split; [done|]. split; [done|].
  apply collector_loop_no_answer_requests.
Qed.

Lemma main_resolver_aborted (fuel : nat) (srv : server) (d : list (Z * Z)) :
  let c := collector_loop fuel srv 0%nat cstate_init in
  ended c = Completed →
  all_questions (final c) ≠ [] →
  accepted_ids (all_questions (final c)) = Some d →
  ended (resolver srv (served c) (dict_values d)) = Aborted →
  how (main fuel srv) = Crashed ∧ csv (main fuel srv) = None.
Proof.
  intros c Hc Hq Hd Hr. unfold main. fold c. rewrite Hc.
  destruct (all_questions (final c)) as [|q qs]; [done|].
  rewrite Hd, Hr. done.
Qed.

(** C9: a page with an item without [creation_date] makes line 79 raise,
    and a returned answer without [answer_id] makes line 152 raise; neither
    is inside a [try], so the pass ends by the exception and not by the
    [break] or [continue] of an error path, the loop ends with it, and so
    does the program, which writes no file. *)
Theorem missing_key_aborts_run (resp : response) (l : list jobj) :
  successful_page resp l →
  ((∃ item, item ∈ l ∧ creation_date item = None) →
   (∀ st, ∃ st',
      collector_body st resp =
        (Raise, st',
         [Print (MsgBatch (batch_num st) (question_params (marker st)));
          Get (GetQuestions (question_params (marker st))) resp;
          Print (MsgRetrieved (length l))])) ∧
   (∀ fuel srv n st,
      srv n = resp → ended (collector_loop (S fuel) srv n st) = Aborted) ∧
   (∀ fuel srv,
      srv 0%nat = resp →
      how (main (S fuel) srv) = Crashed ∧ csv (main (S fuel) srv) = None)) ∧
  ((∃ ans, ans ∈ l ∧ answer_id ans = None) →
   (∀ acc b, ∃ recorded,
      resolver_body acc b resp =
        (Raise, recorded,
         [Print (MsgFetching b); Get (GetAnswers b the_answer_params) resp])) ∧
   (∀ srv n ids i rest acc,
      srv n = resp →
      ended (resolver_loop srv n ids (i :: rest) acc) = Aborted) ∧
   (∀ fuel srv d,
      let c := collector_loop fuel srv 0%nat cstate_init in
      ended c = Completed →
      accepted_ids (all_questions (final c)) = Some d →
      dict_values d ≠ [] →
      srv (served c) = resp →
      how (main fuel srv) = Crashed ∧ csv (main fuel srv) = None)).
Proof.
  intros (Hs & data & Hj & Hl).
  assert (Hcol : (∃ item, item ∈ l ∧ creation_date item = None) →
                 ∀ st, ∃ st',
                   collector_body st resp =
                     (Raise, st',
                      [Print (MsgBatch (batch_num st) (question_params (marker st)));
                       Get (GetQuestions (question_params (marker st))) resp;
                       Print (MsgRetrieved (length l))])).
  { intros Hmiss st. unfold collector_body. rewrite Hs, Hj. simpl. rewrite Hl.
    destruct l as [|x l']; [destruct Hmiss as (? & H & _); by apply elem_of_nil in H|].
    unfold min_creation_date. rewrite (creation_dates_missing _ Hmiss).
    by eexists. }
  assert (Hres : (∃ ans, ans ∈ l ∧ answer_id ans = None) →
                 ∀ acc b, ∃ recorded,
                   resolver_body acc b resp =
                     (Raise, recorded,
                      [Print (MsgFetching b);
                       Get (GetAnswers b the_answer_params) resp])).
  { intros Hmiss acc b. unfold resolver_body. rewrite Hs, Hj. simpl. rewrite Hl.
    destruct (record_answers_missing acc l Hmiss) as (recorded & ->).
    by eexists. }
  split.
  - intros Hmiss. split_and!.
    + by apply Hcol.
    + intros fuel srv n st Hn. rewrite collector_loop_unfold, Hn.
      by destruct (Hcol Hmiss st) as (st' & ->).
    + intros fuel srv Hn.
      assert (Ha : ended (collector_loop (S fuel) srv 0 cstate_init) = Aborted).
      { rewrite collector_loop_unfold, Hn.
        by destruct (Hcol Hmiss cstate_init) as (st' & ->). }
      destruct (main_collector_aborted _ _ Ha) as (? & ? & _). done.
  - intros Hmiss. split_and!.
    + by apply Hres.
    + intros srv n ids i rest acc Hn. rewrite resolver_loop_unfold, Hn.
      by destruct (Hres Hmiss acc (slice ids i (i + batch_size)))
        as (recorded & ->).
    + intros fuel srv d c Hc Hd Hne Hn. subst c.
      assert (Hq : all_questions
                     (final (collector_loop fuel srv 0 cstate_init)) ≠ []).
      { intros Hq. rewrite Hq in Hd. injection Hd as <-. done. }
      apply (main_resolver_aborted fuel srv d Hc Hq Hd).
      unfold resolver.
      destruct (py_range (length (dict_values d)) batch_size) as [|i rest] eqn:Hr.
      * exfalso. apply (f_equal length) in Hr.
        rewrite py_range_length in Hr by (unfold batch_size; lia).
        destruct (ceil_div_spec (length (dict_values d)) batch_size
                    ltac:(unfold batch_size; lia)) as [Hlo _].
        rewrite Hr in Hlo. simpl in Hlo.
        destruct (dict_values d); [done|simpl in Hlo; lia].
      * rewrite resolver_loop_unfold, Hn.
        by destruct (Hres Hmiss ∅ (slice (dict_values d) i (i + batch_size)))
          as (recorded & ->).
Qed.

Lemma missing_key_aborts_run_witness :
  let bare := {| question_id := Some 1; creation_date := None;
                 accepted_answer_id := None; answer_id := None;
                 title := None; body := None; tags := None;
                 is_answered := None |} in
  let resp := page [question 2 100 None; bare] in
  successful_page resp [question 2 100 None; bare] ∧
  how (main 1 (scripted [resp])) = Crashed ∧
  csv (main 1 (scripted [resp])) = None ∧
  ended (resolver_loop (scripted [resp]) 0 [7] [0%nat] ∅) = Aborted.
Proof.
  intros bare resp.
  assert (Hp : successful_page resp [question 2 100 None; bare]).
  { split; [reflexivity|]. eexists. split; reflexivity. }
  destruct (missing_key_aborts_run resp _ Hp) as [Hcol Hres].
  destruct Hcol as (_ & _ & Hmain).
  { exists bare. split; [repeat constructor|reflexivity]. }
  destruct Hres as (_ & Hloop & _).
  { exists bare. split; [repeat constructor|reflexivity]. }
  destruct (Hmain 0%nat (scripted [resp]) eq_refl) as [Hhow Hcsv].
  split; [exact Hp|]. split; [exact Hhow|]. split; [exact Hcsv|].
  exact (Hloop (scripted [resp]) 0%nat [7] 0%nat [] ∅ eq_refl).
Defined.

(** ** No questions, no file *)

(** C10: when the first loop has ended with no question collected, the
    program ends there: by [exit()] on line 97 when the loop was left by
    [break], by the exception when the loop was ended by one.  No answers
    request is sent and no file is written, and in the first case the last
    two lines printed are the total of 0 and the notice of line 96. *)
Theorem no_questions_no_file (fuel : nat) (srv : server) :
  let c := collector_loop fuel srv 0%nat cstate_init in
  let o := main fuel srv in
  ended c ≠ Looping →
  all_questions (final c) = [] →
  csv o = None ∧
  answer_batches (output o) = [] ∧
  (ended c = Completed →
     how o = Exited ∧
     output o = Print MsgRetrievingQuestions :: trace c
                ++ [Print (MsgTotal 0); Print MsgNoQuestions]) ∧
  (ended c = Aborted → how o = Crashed).
Proof.
  intros c o Hend Hq. subst o. unfold main. fold c.
  pose proof (collector_loop_no_answer_requests fuel srv 0 cstate_init) as Hn.
  fold c in Hn.
  destruct (ended c) eqn:He; [done| |].
  - rewrite Hq. simpl. split; [done|].
    split.
    + change (answer_batches
                ((trace c ++ [Print (MsgTotal 0)]) ++ [Print MsgNoQuestions]) = []).
      by rewrite !answer_batches_app, Hn.
    + split; [|done]. intros _. split; [done|].
      by rewrite <- app_assoc.
  - simpl. split; [done|]. split; [exact Hn|]. split; [done|done].
Qed.

Lemma no_questions_no_file_witness :
  let srv := scripted [throttled "available in 3 seconds"; bad_gateway] in
  let c := collector_loop 5 srv 0%nat cstate_init in
  ended c = Completed ∧ all_questions (final c) = [] ∧
  how (main 5 srv) = Exited ∧ csv (main 5 srv) = None ∧
  answer_batches (output (main 5 srv)) = [].
Proof.
  intros srv c.
  assert (He : ended c = Completed) by reflexivity.
  assert (Hq : all_questions (final c) = []) by reflexivity.
  destruct (no_questions_no_file 5 srv) as (Hcsv & Hreq & Hexit & _).
  { fold c. rewrite He. discriminate. }
  { exact Hq. }
  destruct (Hexit He) as [Hhow _].
  split; [exact He|]. split; [exact Hq|]. split; [exact Hhow|].
  split; [exact Hcsv|exact Hreq].
Defined.

(** ** The cursor *)

(** A pass that reaches the end of the body got a page that is not empty,
    appended it, and moved [marker] to the oldest creation date of the page,
    strictly below the value it had. *)
Lemma collector_body_next (st st' : cstate) (resp : response) (t : list event) :
  collector_body st resp = (Next, st', t) →
  ∃ page new_marker,
    successful_page resp page ∧ page ≠ [] ∧
    min_creation_date page = Some new_marker ∧
    st' = {| all_questions := all_questions st ++ page;
             marker := Some new_marker;
             batch_num := S (batch_num st) |} ∧
    (∀ m, marker st = Some m → new_marker < m) ∧
    (∀ data b, json_of resp = JsonObject data → backoff data = Some b →
               sleepable b = true).
Proof.
  unfold collector_body. intros H.
  destruct (status_code resp =? 200) eqn:Hs; simpl in H;
    [|repeat case_match; simplify_eq].
  apply Z.eqb_eq in Hs.
  destruct (json_of resp) as [| |data] eqn:Hj; [done|done|].
  destruct (default [] (items data)) as [|x page] eqn:Hp; [done|].
  destruct (min_creation_date (x :: page)) as [new_marker|] eqn:Hm; [|done].
  exists (x :: page), new_marker.
  assert (Hpage : successful_page resp (x :: page)).
  { split; [done|]. exists data. done. }
  assert (Hback : ∀ data' b, JsonObject data = JsonObject data' →
                    backoff data' = Some b → sleepable b = true).
  { intros data' b [= <-] Hb. rewrite Hb in H.
    destruct (sleepable b); [done|].
    repeat case_match; simplify_eq. }
  destruct (marker st) as [m|] eqn:Hmk.
  - destruct (Z.leb_spec m new_marker); [done|].
    repeat case_match; simplify_eq; split_and!; try done;
      intros ? [= <-]; lia.
  - repeat case_match; simplify_eq; split_and!; done.
Qed.

(** A pass that ends by [continue] was rate limited, with a wait that
    could be taken, and left the state as it was. *)
Lemma collector_body_continue (st st' : cstate) (resp : response) (t : list event) :
  collector_body st resp = (Continue, st', t) →
  st' = st ∧ ∃ msg, rate_limited resp msg ∧ waitable msg = true.
Proof.
  unfold collector_body. intros H.
  destruct (status_code resp =? 200) eqn:Hs; simpl in H;
    [repeat case_match; simplify_eq|].
  apply Z.eqb_neq in Hs.
  destruct (json_of resp) as [| |e] eqn:Hj; [done|done|].
  destruct (is_throttle e) eqn:Ht; [|done].
  apply is_throttle_true in Ht.
  split; [repeat case_match; by simplify_eq|].
  exists (default EmptyString (error_message e)).
  split; [split; [done|]; by exists e|].
  unfold waitable.
  destruct (re_search_group _) as [ds|]; [|done].
  destruct (py_int ds) as [w|]; [|done].
  by destruct (sleepable w).
Qed.


Lemma markers_set_unfold (fuel : nat) (srv : server) (n : nat) (st : cstate) :
  markers_set (S fuel) srv n st =
    match collector_body st (srv n) with
    | (Continue, st', _) => markers_set fuel srv (S n) st'
    | (Next, st', _) =>
        match marker st' with
        | Some m => m :: markers_set fuel srv (S n) st'
        | None => markers_set fuel srv (S n) st'
        end
    | (Break, _, _) | (Raise, _, _) => []
    end.
Proof. reflexivity. Qed.


Lemma creation_dates_none (l : list jobj) :
  creation_dates l = None → ∃ item, item ∈ l ∧ creation_date item = None.
Proof.
  induction l as [|x l IH]; [done|]. simpl.
  destruct (creation_date x) as [d|] eqn:Hx.
  - destruct (creation_dates l); [done|]. intros _.
    destruct (IH eq_refl) as (item & Hin & Hnone).
    exists item. split; [by right|done].
  - intros _. exists x. split; [by left|done].
Qed.

Lemma min_creation_date_none (l : list jobj) :
  l ≠ [] → min_creation_date l = None →
  ∃ item, item ∈ l ∧ creation_date item = None.
Proof.
  unfold min_creation_date. intros Hl H.
  destruct (creation_dates l) as [ds|] eqn:Hd; [|by apply creation_dates_none].
  destruct l as [|x l]; [done|]. simpl in Hd.
  destruct (creation_date x); [|done].
  destruct (creation_dates l); [|done]. by simplify_eq.
Qed.

Lemma not_rate_limited (resp : response) :
  match json_of resp with
  | JsonObject e => is_throttle e = false
  | JsonInvalid | JsonNotObject => True
  end →
  ¬ ∃ msg, rate_limited resp msg.
Proof.
  intros H (msg & _ & e & He & Hn & _). rewrite He in H.
  apply is_throttle_true in Hn. congruence.
Qed.

(** Why a pass ended by [break]. *)
Lemma collector_body_break (st st' : cstate) (resp : response) (t : list event) :
  collector_body st resp = (Break, st', t) →
  failed resp ∨
  (∃ msg, rate_limited resp msg ∧ waitable msg = false) ∨
  page_empty resp ∨ cursor_stalled st resp.
Proof.
  unfold collector_body. intros H.
  destruct (status_code resp =? 200) eqn:Hs; simpl in H.
  - apply Z.eqb_eq in Hs.
    destruct (json_of resp) as [| |data] eqn:Hj; [|done|].
    { left. by right. }
    destruct (default [] (items data)) as [|x page] eqn:Hp.
    { right. right. left. split; [done|]. by exists data. }
    destruct (min_creation_date (x :: page)) as [new_marker|] eqn:Hm; [|done].
    destruct (marker st) as [m|] eqn:Hmk.
    + destruct (Z.leb_spec m new_marker).
      * right. right. right. exists (x :: page), new_marker, m.
        split_and!; try done. split; [done|]. by exists data.
      * repeat case_match; simplify_eq.
    + repeat case_match; simplify_eq.
  - apply Z.eqb_neq in Hs.
    destruct (json_of resp) as [| |e] eqn:Hj.
    + left. left. split; [done|]. apply not_rate_limited. by rewrite Hj.
    + left. left. split; [done|]. apply not_rate_limited. by rewrite Hj.
    + destruct (is_throttle e) eqn:Ht.
      * right. left. exists (default EmptyString (error_message e)).
        split.
        { split; [done|]. exists e. by rewrite <- is_throttle_true. }
        unfold waitable.
        destruct (re_search_group _) as [ds|]; [|done].
        destruct (py_int ds) as [w|]; [|done].
        by destruct (sleepable w).
      * left. left. split; [done|]. apply not_rate_limited. by rewrite Hj.
Qed.



Lemma collector_body_break_marker
    (st st' : cstate) (resp : response) (t : list event) :
  collector_body st resp = (Break, st', t) → marker st' = marker st.
Proof.
  unfold collector_body. intros H. repeat case_match; by simplify_eq.
Qed.




(** ** Duplicates *)

(** C2 (as stated, refuted): the server answers the second request with the
    page it gave first.  The oldest creation date of that page, 100, is not
    below the cursor, 100, and the loop stops; line 76 has appended the page
    before the test of line 80, and question 1 is collected twice.  A second
    server repeats question 1 next to an older question: the cursor goes
    down, the loop goes on, and question 1 is collected twice as well,
    since ids are never compared. *)
Lemma collector_duplicates_counterexample :
  let srv := scripted [page [question 1 100 None]; page [question 1 100 None]] in
  let r := collector_loop 2 srv 0 cstate_init in
  let srv' := scripted [page [question 1 100 None];
                        page [question 1 100 None; question 2 50 None]] in
  let r' := collector_loop 3 srv' 0 cstate_init in
  (ended r = Completed ∧
   cursor_stalled {| all_questions := [question 1 100 None];
                     marker := Some 100; batch_num := 2 |} (srv 1%nat) ∧
   map question_id (all_questions (final r)) = [Some 1; Some 1] ∧
   ¬ NoDup (map question_id (all_questions (final r)))) ∧
  (ended r' = Completed ∧
   markers_set 3 srv' 0 cstate_init = [100; 50] ∧
   map question_id (all_questions (final r')) = [Some 1; Some 1; Some 2] ∧
   ¬ NoDup (map question_id (all_questions (final r')))).
Proof.
  intros srv r srv' r'. split.
  - split; [reflexivity|]. split.
    + exists [question 1 100 None], 100, 100.
      split_and!; [|reflexivity|reflexivity|lia].
      split; [reflexivity|]. eexists. split; reflexivity.
    + split; [reflexivity|].
      change (map question_id (all_questions (final r))) with [Some 1; Some 1].
      intros H. apply NoDup_cons in H as [H _]. apply H. by left.
  - split; [reflexivity|]. split; [reflexivity|]. split; [reflexivity|].
    change (map question_id (all_questions (final r')))
      with [Some 1; Some 1; Some 2].
    intros H. apply NoDup_cons in H as [H _]. apply H. by left.
Qed.

Lemma fold_left_min_le (ds : list Z) (d : Z) :
  fold_left Z.min ds d ≤ d ∧ Forall (λ x, fold_left Z.min ds d ≤ x) ds.
Proof.
  revert d. induction ds as [|x ds IH]; intros d; simpl.
  - split; [lia|constructor].
  - destruct (IH (Z.min d x)) as [H1 H2]. split; [lia|].
    constructor; [lia|done].
Qed.

(** The value of line 79 is a lower bound of the creation dates of the
    page, and every item of the page has one. *)
Lemma min_creation_date_le (l : list jobj) (m : Z) :
  min_creation_date l = Some m →
  Forall (λ item, ∃ d, creation_date item = Some d ∧ m ≤ d) l.
Proof.
  unfold min_creation_date.
  destruct (creation_dates l) as [ds|] eqn:Hd; [|done].
  intros Hm.
  assert (Hall : Forall (λ d, m ≤ d) ds).
  { destruct ds as [|d ds]; [done|]. simpl in Hm. injection Hm as <-.
    destruct (fold_left_min_le ds d). by constructor. }
  clear Hm. revert ds Hd Hall.
  induction l as [|x l IH]; intros ds Hd Hall; [constructor|].
  simpl in Hd. destruct (creation_date x) as [d|] eqn:Hx; [|done].
  destruct (creation_dates l) as [ds'|] eqn:Hl; [|done].
  injection Hd as <-. apply Forall_cons in Hall as [H1 H2].
  constructor; [by exists d|]. by apply (IH ds').
Qed.

Lemma dated_by_id_app_l (l more : list jobj) :
  dated_by_id (l ++ more) → dated_by_id l.
Proof.
  intros H x y Hx Hy. apply H; apply elem_of_app; by left.
Qed.

Lemma well_served_app (t1 t2 : list event) :
  well_served (t1 ++ t2) → well_served t1 ∧ well_served t2.
Proof.
  intros H. split; intros params resp Hin; apply H, elem_of_app; auto.
Qed.

(** Appending a page served within the [max] of the cursor keeps the ids
    distinct: the page is older than everything collected before. *)
Lemma page_appended_distinct (st : cstate) (l : list jobj) :
  cursor_inv st →
  (∀ m, marker st = Some m →
        Forall (λ item, ∃ d, creation_date item = Some d ∧ d ≤ m - 1) l) →
  NoDup (map question_id l) →
  dated_by_id (all_questions st ++ l) →
  NoDup (map question_id (all_questions st ++ l)).
Proof.
  intros [Hnd Hinv] Hmax Hl Hdated.
  destruct (marker st) as [m|] eqn:Hm; [|by rewrite Hinv].
  rewrite map_app. apply NoDup_app. split; [done|]. split; [|done].
  intros i Hi1 Hi2.
  apply list_elem_of_fmap in Hi1 as (x & -> & Hx).
  apply list_elem_of_fmap in Hi2 as (y & Hxy & Hy).
  assert (Hd : creation_date x = creation_date y).
  { apply Hdated; [apply elem_of_app; by left|apply elem_of_app; by right|done]. }
  rewrite Forall_forall in Hinv. destruct (Hinv x Hx) as (dx & Hdx & Hge).
  specialize (Hmax m eq_refl). rewrite Forall_forall in Hmax.
  destruct (Hmax y Hy) as (dy & Hdy & Hle).
  assert (dx = dy) by congruence. lia.
Qed.

Lemma page_of_success (resp : response) (data : envelope) :
  (status_code resp =? 200) = true →
  json_of resp = JsonObject data →
  page_of resp = default [] (items data).
Proof. intros Hs Hj. unfold page_of. by rewrite Hs, Hj. Qed.

(** A pass only ever appends to [all_questions]. *)
Lemma collector_body_extends
    (st st' : cstate) (resp : response) (sig : signal) (t : list event) :
  collector_body st resp = (sig, st', t) →
  ∃ more, all_questions st' = all_questions st ++ more.
Proof.
  unfold collector_body. intros H.
  repeat case_match; simplify_eq; simpl;
    (by exists []; rewrite app_nil_r) || (by eexists).
Qed.

Lemma collector_loop_extends (fuel : nat) (srv : server) :
  ∀ n st, ∃ more,
    all_questions (final (collector_loop fuel srv n st))
    = all_questions st ++ more.
Proof.
  induction fuel as [|fuel IH]; intros n st.
  - exists []. by rewrite app_nil_r.
  - rewrite collector_loop_unfold.
    destruct (collector_body st (srv n)) as [[sig st'] t] eqn:Hb.
    destruct (collector_body_extends _ _ _ _ _ Hb) as (more & Hmore).
    destruct sig; simpl; try by exists more.
    + destruct (IH (S n) st') as (more' & ->). rewrite Hmore.
      exists (more ++ more'). by rewrite app_assoc.
    + destruct (IH (S n) st') as (more' & ->). rewrite Hmore.
      exists (more ++ more'). by rewrite app_assoc.
Qed.

(** One pass keeps the ids distinct when its request is answered within
    its [max] and without a repeated id, and, when the loop goes on, keeps
    everything collected at least as recent as the cursor. *)
Lemma collector_body_keeps_distinct
    (st st' : cstate) (resp : response) (sig : signal) (t : list event) :
  collector_body st resp = (sig, st', t) →
  cursor_inv st →
  within_max (question_params (marker st)) resp →
  distinct_ids resp →
  dated_by_id (all_questions st') →
  NoDup (map question_id (all_questions st')) ∧
  (sig = Continue ∨ sig = Next → cursor_inv st').
Proof.
  intros H Hinv Hmax Hdist Hdated. unfold collector_body in H.
  destruct (status_code resp =? 200) eqn:Hs; simpl in H.
  2:{ assert (st' = st) as -> by (repeat case_match; by simplify_eq).
      split; [apply Hinv|done]. }
  destruct (json_of resp) as [| |data] eqn:Hj.
  { simplify_eq. split; [apply Hinv|done]. }
  { simplify_eq. split; [apply Hinv|]. by intros [?|?]. }
  unfold within_max, distinct_ids in *.
  rewrite (page_of_success resp data Hs Hj) in Hmax, Hdist.
  destruct (default [] (items data)) as [|x l] eqn:Hp.
  { simplify_eq. split; [apply Hinv|]. by intros [?|?]. }
  assert (Hall : all_questions st' = all_questions st ++ x :: l)
    by (repeat case_match; by simplify_eq).
  assert (Hbound : ∀ m, marker st = Some m →
            Forall (λ item, ∃ d, creation_date item = Some d ∧ d ≤ m - 1)
                   (x :: l)).
  { intros m Hm. apply Hmax. simpl. by rewrite Hm. }
  assert (Hnd : NoDup (map question_id (all_questions st'))).
  { rewrite Hall. apply page_appended_distinct; try done. by rewrite <- Hall. }
  split; [done|]. intros Hsig.
  destruct (min_creation_date (x :: l)) as [new_marker|] eqn:Hmin;
    [|simplify_eq; by destruct Hsig].
  pose proof (min_creation_date_le _ _ Hmin) as Hle.
  assert (Hlt : ∀ m, marker st = Some m → new_marker < m).
  { intros m Hm. specialize (Hbound m Hm).
    apply Forall_cons in Hbound as [(d & Hd & Hd1) _].
    apply Forall_cons in Hle as [(d' & Hd' & Hd2) _].
    assert (d = d') by congruence. lia. }
  assert (Hmk : marker st' = Some new_marker).
  { destruct (marker st) as [m|] eqn:Hm.
    - specialize (Hlt m eq_refl).
      destruct (Z.leb_spec m new_marker); [lia|].
      repeat case_match; simplify_eq; by destruct Hsig.
    - repeat case_match; simplify_eq; by destruct Hsig. }
  split; [done|]. rewrite Hmk, Hall. apply Forall_app. split; [|done].
  destruct Hinv as [_ Hold].
  destruct (marker st) as [m|] eqn:Hm; [|by rewrite Hold].
  specialize (Hlt m eq_refl).
  eapply Forall_impl; [exact Hold|]. simpl.
  intros item (d & Hd & Hge). exists d. split; [done|lia].
Qed.

Lemma collector_loop_distinct (fuel : nat) (srv : server) :
  ∀ n st,
    let r := collector_loop fuel srv n st in
    cursor_inv st →
    well_served (trace r) →
    dated_by_id (all_questions (final r)) →
    NoDup (map question_id (all_questions (final r))).
Proof.
  induction fuel as [|fuel IH]; intros n st; cbv zeta.
  - intros [H _] _ _. exact H.
  - rewrite collector_loop_unfold.
    destruct (collector_body st (srv n)) as [[sig st'] t] eqn:Hb.
    destruct (collector_body_request st (srv n))
      as (sig0 & st0 & rest & Hb0 & _). rewrite Hb in Hb0.
    injection Hb0 as _ _ Ht.
    assert (Hget : Get (GetQuestions (question_params (marker st))) (srv n) ∈ t).
    { rewrite Ht. right. by left. }
    intros Hinv Hserved Hdated.
    destruct sig; simpl in *.
    + apply well_served_app in Hserved as [Ht1 Ht2].
      destruct (Ht1 _ _ Hget) as [Hmax Hdist].
      destruct (collector_loop_extends fuel srv (S n) st') as (more & Hmore).
      assert (Hd' : dated_by_id (all_questions st'))
        by (rewrite Hmore in Hdated; by apply dated_by_id_app_l in Hdated).
      destruct (collector_body_keeps_distinct _ _ _ _ _ Hb Hinv Hmax Hdist Hd')
        as [_ Hinv'].
      apply IH; [apply Hinv'; by left|done|done].
    + apply well_served_app in Hserved as [Ht1 Ht2].
      destruct (Ht1 _ _ Hget) as [Hmax Hdist].
      destruct (collector_loop_extends fuel srv (S n) st') as (more & Hmore).
      assert (Hd' : dated_by_id (all_questions st'))
        by (rewrite Hmore in Hdated; by apply dated_by_id_app_l in Hdated).
      destruct (collector_body_keeps_distinct _ _ _ _ _ Hb Hinv Hmax Hdist Hd')
        as [_ Hinv'].
      apply IH; [apply Hinv'; by right|done|done].
    + destruct (Hserved _ _ Hget) as [Hmax Hdist].
      by destruct (collector_body_keeps_distinct _ _ _ _ _ Hb Hinv Hmax Hdist Hdated).
    + destruct (Hserved _ _ Hget) as [Hmax Hdist].
      by destruct (collector_body_keeps_distinct _ _ _ _ _ Hb Hinv Hmax Hdist Hdated).
Qed.

(** C2 (amended): when every questions request of the run is answered
    within its [max] (no item of the page is more recent than the cursor
    minus one) and without a repeated id, and ids determine creation dates,
    no id is collected twice. *)
Theorem collector_no_duplicates (fuel : nat) (srv : server) :
  let r := collector_loop fuel srv 0%nat cstate_init in
  well_served (trace r) →
  dated_by_id (all_questions (final r)) →
  NoDup (map question_id (all_questions (final r))).
Proof.
  intros r. apply collector_loop_distinct.
  split; [constructor|done].
Qed.

(** Case analysis on membership in an explicit list. *)
Ltac in_list H :=
  repeat (apply elem_of_cons in H as [H|H]; [try discriminate H|]);
  try (by apply elem_of_nil in H).

Lemma collector_no_duplicates_witness :
  let srv := scripted [page [question 1 100 None; question 2 90 None];
                       throttled "available in 2 seconds";
                       page [question 3 50 None];
                       page []] in
  let r := collector_loop 5 srv 0%nat cstate_init in
  well_served (trace r) ∧
  dated_by_id (all_questions (final r)) ∧
  map question_id (all_questions (final r)) = [Some 1; Some 2; Some 3] ∧
  NoDup (map question_id (all_questions (final r))).
Proof.
  intros srv r.
  assert (Hs : well_served (trace r)).
  { intros params resp Hin. vm_compute in Hin. in_list Hin;
      injection Hin as -> ->; (split; [intros m Hm|compute_done]);
      try discriminate Hm; injection Hm as <-;
      unfold page_of; simpl; repeat constructor.
    eexists. split; [reflexivity|lia]. }
  assert (Hd : dated_by_id (all_questions (final r))).
  { intros x y Hx Hy. vm_compute in Hx, Hy. in_list Hx; in_list Hy;
      subst; intros Hid; try reflexivity; discriminate Hid. }
  split; [exact Hs|]. split; [exact Hd|]. split; [reflexivity|].
  exact (collector_no_duplicates 5 srv Hs Hd).
Defined.

(** ** The ids sent for resolution *)

(** C4 (as stated, refuted): two questions name the same accepted answer.
    Line 103 keys the dictionary by question id, so both entries stay, and
    id 9 goes out twice, in one request. *)
Lemma resolver_repeated_id_counterexample :
  let srv := scripted [page [question 1 100 (Some 9); question 2 90 (Some 9)]] in
  let o := main 3 srv in
  how o = Done ∧
  answer_batches (output o) = [[9; 9]] ∧
  ¬ NoDup (concat (answer_batches (output o))).
Proof.
  intros srv o. split; [reflexivity|]. split; [reflexivity|].
  change (concat (answer_batches (output o))) with [9; 9].
  intros H. apply NoDup_cons in H as [H _]. apply H. by left.
Qed.

Lemma dict_set_elem (d : list (Z * Z)) (k v : Z) (e : Z * Z) :
  e ∈ dict_set d k v → e = (k, v) ∨ e ∈ d.
Proof.
  induction d as [|[k' v'] d IH]; simpl.
  - intros H. apply list_elem_of_singleton in H. by left.
  - destruct (Z.eqb_spec k' k) as [->|Hne].
    + intros [->|H]%elem_of_cons; [by left|]. right. by right.
    + intros [->|H]%elem_of_cons; [right; by left|].
      destruct (IH H) as [?|?]; [by left|]. right. by right.
Qed.

Lemma dict_set_keys (d : list (Z * Z)) (k v : Z) :
  map fst (dict_set d k v) =
    if decide (k ∈ map fst d) then map fst d else map fst d ++ [k].
Proof.
  induction d as [|[k' v'] d IH].
  - destruct (decide (k ∈ map fst [])) as [H|]; [by apply elem_of_nil in H|done].
  - simpl. destruct (Z.eqb_spec k' k) as [->|Hne]; simpl.
    + rewrite decide_True by (by left). done.
    + rewrite IH. destruct (decide (k ∈ map fst d)) as [Hin|Hnin].
      * rewrite decide_True by (by right). done.
      * rewrite decide_False; [done|].
        intros [?|?]%elem_of_cons; congruence.
Qed.

Lemma dict_set_keys_distinct (d : list (Z * Z)) (k v : Z) :
  NoDup (map fst d) → NoDup (map fst (dict_set d k v)).
Proof.
  intros H. rewrite dict_set_keys. case_decide; [done|].
  apply NoDup_app. split; [done|]. split; [|apply NoDup_singleton].
  intros x Hx Hk. apply list_elem_of_singleton in Hk. by subst.
Qed.

(** The dictionary of line 103 has one entry per key, and every entry is
    the pair of ids of a question. *)
Lemma accepted_ids_from_entries (questions : list jobj) :
  ∀ d d',
    accepted_ids_from d questions = Some d' →
    NoDup (map fst d) →
    NoDup (map fst d') ∧
    ∀ k a, (k, a) ∈ d' →
           (k, a) ∈ d ∨
           ∃ q, q ∈ questions ∧ question_id q = Some k ∧
                accepted_answer_id q = Some a.
Proof.
  induction questions as [|q qs IH]; intros d d'; simpl.
  - intros [= <-] Hnd. split; [done|]. intros; by left.
  - destruct (accepted_answer_id q) as [a|] eqn:Ha.
    + destruct (question_id q) as [k|] eqn:Hk; [|done].
      intros H Hnd.
      destruct (IH _ _ H (dict_set_keys_distinct d k a Hnd)) as [Hnd' Hent].
      split; [done|]. intros k' a' Hin.
      destruct (Hent k' a' Hin) as [Hset|(q' & Hq' & ? & ?)].
      * apply dict_set_elem in Hset as [[= -> ->]|?]; [|by left].
        right. exists q. split; [by left|done].
      * right. exists q'. split; [by right|done].
    + intros H Hnd. destruct (IH _ _ H Hnd) as [Hnd' Hent].
      split; [done|]. intros k' a' Hin.
      destruct (Hent k' a' Hin) as [?|(q' & Hq' & ? & ?)]; [by left|].
      right. exists q'. split; [by right|done].
Qed.

Lemma values_distinct (d : list (Z * Z)) :
  NoDup (map fst d) →
  (∀ k1 k2 a, (k1, a) ∈ d → (k2, a) ∈ d → k1 = k2) →
  NoDup (map snd d).
Proof.
  induction d as [|[k a] d IH]; simpl; [constructor|].
  intros [Hk Hnd]%NoDup_cons Hinj. apply NoDup_cons. split.
  - intros Hin. apply list_elem_of_fmap in Hin as ([k' a'] & Ha & Hin).
    simpl in Ha. subst a'.
    assert (k = k') as <-.
    { apply (Hinj k k' a); [by left|by right]. }
    apply Hk. apply list_elem_of_fmap. by exists (k, a).
  - apply IH; [done|]. intros k1 k2 a' H1 H2.
    apply (Hinj k1 k2 a'); by right.
Qed.

(** The ids handed to the second loop are distinct when distinct questions
    have distinct accepted answers. *)
Lemma accepted_answer_ids_distinct (questions : list jobj) (d : list (Z * Z)) :
  accepted_once questions →
  accepted_ids questions = Some d →
  NoDup (dict_values d).
Proof.
  intros Honce Hd. unfold accepted_ids in Hd.
  destruct (accepted_ids_from_entries questions [] d Hd) as [Hnd Hent];
    [constructor|].
  apply values_distinct; [done|].
  intros k1 k2 a H1 H2.
  destruct (Hent k1 a H1) as [H|(q1 & Hq1 & Hk1 & Ha1)];
    [by apply elem_of_nil in H|].
  destruct (Hent k2 a H2) as [H|(q2 & Hq2 & Hk2 & Ha2)];
    [by apply elem_of_nil in H|].
  pose proof (Honce q1 q2 a Hq1 Hq2 Ha1 Ha2) as Heq.
  congruence.
Qed.

(** The requests of the second loop, put end to end, are a prefix of the
    list of ids. *)
Lemma resolver_requests_prefix (srv : server) (n : nat) (ids : list Z) :
  ∃ j, concat (answer_batches (trace (resolver srv n ids))) = take j ids.
Proof.
  unfold resolver.
  destruct (resolver_loop_batches srv ids
              (py_range (length ids) batch_size) n ∅) as (-> & _).
  set (j := (served _ - n)%nat). clearbody j.
  rewrite py_range_progression by (unfold batch_size; lia).
  unfold batches_of at 1.
  rewrite <- fmap_take, <- fmap_take, take_seq.
  exists ((j `min` ceil_div (length ids) batch_size) * batch_size)%nat.
  apply batches_concat.
Qed.

(** C4 (amended): when distinct questions of the collected list have
    distinct accepted answers, no id is sent to the answers endpoint
    twice over the whole run. *)
Theorem resolver_requests_each_id_once (fuel : nat) (srv : server) :
  let c := collector_loop fuel srv 0%nat cstate_init in
  accepted_once (all_questions (final c)) →
  NoDup (concat (answer_batches (output (main fuel srv)))).
Proof.
  intros c Honce. unfold main. fold c.
  pose proof (collector_loop_no_answer_requests fuel srv 0 cstate_init) as Hn.
  fold c in Hn.
  assert (H1 : answer_batches (Print MsgRetrievingQuestions :: trace c) = [])
    by exact Hn.
  destruct (ended c); try (simpl; rewrite Hn; constructor).
  destruct (all_questions (final c)) as [|q qs] eqn:Hq.
  { simpl. rewrite !answer_batches_app, Hn. constructor. }
  destruct (accepted_ids (q :: qs)) as [d|] eqn:Hd.
  2:{ simpl. rewrite !answer_batches_app, Hn. constructor. }
  pose proof (accepted_answer_ids_distinct _ _ Honce Hd) as Hnd.
  destruct (resolver_requests_prefix srv (served c) (dict_values d))
    as (j & Hj).
  assert (Hgoal : NoDup (concat (answer_batches
                    (trace (resolver srv (served c) (dict_values d)))))).
  { rewrite Hj. eapply sublist_NoDup; [exact Hnd|apply sublist_take]. }
  destruct (ended (resolver srv (served c) (dict_values d))); simpl;
    rewrite ?answer_batches_app; simpl;
    rewrite ?answer_batches_app, ?Hn; simpl; rewrite ?app_nil_r; exact Hgoal.
Qed.

Lemma resolver_requests_each_id_once_witness :
  let srv := scripted [page [question 1 100 (Some 9); question 2 90 (Some 8);
                             question 3 80 None];
                       page [];
                       page [answer 9 (Some "<p>use nltk</p>"%string); answer 8 None]] in
  accepted_once (all_questions (final (collector_loop 3 srv 0%nat cstate_init))) ∧
  answer_batches (output (main 3 srv)) = [[9; 8]] ∧
  NoDup (concat (answer_batches (output (main 3 srv)))).
Proof.
  intros srv.
  assert (Ho : accepted_once
                 (all_questions (final (collector_loop 3 srv 0%nat cstate_init)))).
  { intros x y a Hx Hy. vm_compute in Hx, Hy. in_list Hx; in_list Hy;
      subst; intros Ha1 Ha2; try reflexivity;
      try discriminate Ha1; try discriminate Ha2;
      injection Ha1 as <-; discriminate Ha2. }
  split; [exact Ho|]. split; [reflexivity|].
  exact (resolver_requests_each_id_once 3 srv Ho).
Defined.

(** ** A rate limit in the second loop *)


(** C1 (evaluation): the first answers request is refused with "available
    in 5 seconds".  The resolver sleeps 5 seconds once, and then the [for]
    loop is over: the slice [[7]] is requested once and never again, and
    answer 7, which the server would have returned on the next call, is not
    recorded. *)
Theorem resolver_throttled_slice_not_retried :
  let srv := scripted [throttled "more requests available in 5 seconds";
                       page [answer 7 (Some "<p>use nltk</p>"%string)]] in
  let r := resolver srv 0 [7] in
  ended r = Completed ∧
  answer_batches (trace r) = [[7]] ∧
  sleeps (trace r) = [Seconds 5] ∧
  served r = 1%nat ∧
  final r !! 7 = None.
Proof. vm_compute. split_and!; reflexivity. Qed.


(** * More properties of the script *)

(** ** The search for the advertised wait (lines 46-48, 127-129) *)

Lemma strip_prefix_some (p s r : string) :
  strip_prefix p s = Some r → s = p +:+ r.
Proof.
  revert s. induction p as [|a p IH]; intros s; simpl.
  - by intros [= ->].
  - destruct s as [|b s]; [done|].
    destruct (Ascii.eqb_spec a b) as [->|]; [|done].
    intros H. by rewrite (IH _ H).
Qed.

Lemma span_digits_some (s : string) (ds : list ascii) (r : string) :
  span_digits s = (ds, r) →
  s = string_of_list_ascii ds +:+ r ∧ Forall (λ c, is_digit c = true) ds.
Proof.
  revert ds. induction s as [|c s IH]; intros ds; simpl.
  - intros [= <- <-]. by split.
  - destruct (is_digit c) eqn:Hc.
    + destruct (span_digits s) as [ds' r'] eqn:Hs. intros [= <- <-].
      destruct (IH ds' eq_refl) as [-> Hds]. split; [done|].
      by constructor.
    + intros [= <- <-]. by split.
Qed.

Lemma int_of_digits_nonneg (ds : list ascii) :
  Forall (λ c, is_digit c = true) ds → 0 ≤ int_of_digits ds.
Proof.
  unfold int_of_digits. intros Hds.
  assert (H : ∀ acc, 0 ≤ acc →
            0 ≤ fold_left (λ acc c, 10 * acc + (Z.of_nat (nat_of_ascii c) - 48))
                  ds acc).
  { induction Hds as [|c ds Hc _ IH]; intros acc Ha; simpl; [done|].
    apply IH. unfold is_digit in Hc.
    apply andb_true_iff in Hc as [H1 _]. apply Nat.leb_le in H1. lia. }
  by apply H.
Qed.

Lemma match_wait_here_some (s : string) (w : Z) :
  match_wait_here s = Some w →
  ∃ ds rest,
    s = "available in " +:+ string_of_list_ascii ds +:+ " seconds" +:+ rest ∧
    is_number ds ∧ w = int_of_digits ds.
Proof.
  unfold match_wait_here.
  destruct (strip_prefix "available in " s) as [r|] eqn:Hp; [|done].
  destruct (span_digits r) as [ds r'] eqn:Hd.
  destruct ds as [|d ds]; [done|].
  destruct (strip_prefix " seconds" r') as [rest|] eqn:Hs; [|done].
  intros [= <-]. exists (d :: ds), rest.
  apply strip_prefix_some in Hp, Hs.
  apply span_digits_some in Hd as [Hr Hds].
  split; [by rewrite Hp, Hr, Hs|]. by split.
Qed.

(** Whatever the search returns was read in the message: the message
    holds the phrase "available in", a decimal number and "seconds", and the
    wait is the value of that number, so it is never negative. *)
Theorem re_search_wait_sound (msg : string) (w : Z) :
  re_search_wait msg = Some w →
  0 ≤ w ∧
  ∃ before ds rest,
    msg = before +:+ "available in " +:+ string_of_list_ascii ds
          +:+ " seconds" +:+ rest ∧
    is_number ds ∧ w = int_of_digits ds.
Proof.
  induction msg as [|c msg IH]; rewrite re_search_wait_unfold.
  - destruct (match_wait_here "") as [w'|] eqn:Hm; [|done].
    intros [= ->]. apply match_wait_here_some in Hm as (ds & rest & H & Hn & ->).
    split; [apply int_of_digits_nonneg, Hn|]. by exists EmptyString, ds, rest.
  - destruct (match_wait_here (String c msg)) as [w'|] eqn:Hm.
    + intros [= ->].
      apply match_wait_here_some in Hm as (ds & rest & H & Hn & ->).
      split; [apply int_of_digits_nonneg, Hn|]. by exists EmptyString, ds, rest.
    + intros H. destruct (IH H) as (Hw & before & ds & rest & -> & Hn & ->).
      split; [done|]. by exists (String c before), ds, rest.
Qed.

Lemma re_search_wait_sound_witness :
  re_search_wait "more requests available in 42 seconds" = Some 42 ∧ 0 ≤ 42.
Proof.
  assert (H : re_search_wait "more requests available in 42 seconds" = Some 42)
    by reflexivity.
  split; [exact H|]. exact (proj1 (re_search_wait_sound _ _ H)).
Defined.

(** A message that holds the phrase anywhere is never taken for one
    without a wait: the search finds a wait in it. *)
Theorem re_search_wait_complete (before rest : string) (ds : list ascii) :
  is_number ds →
  is_Some (re_search_wait
             (before +:+ "available in " +:+ string_of_list_ascii ds
              +:+ " seconds" +:+ rest)).
Proof.
  intros [Hne Hds]. induction before as [|c before IH].
  - change (is_Some (re_search_wait
              ("available in " +:+ string_of_list_ascii ds
               +:+ " seconds" +:+ rest))).
    rewrite (re_search_wait_advertised ds rest Hne Hds). by eexists.
  - rewrite re_search_wait_unfold.
    destruct (match_wait_here _); [by eexists|]. exact IH.
Qed.

Lemma re_search_wait_complete_witness :
  is_number ["1"; "0"]%char ∧
  is_Some (re_search_wait "wait: available in 10 seconds, then retry").
Proof.
  assert (Hn : is_number ["1"; "0"]%char).
  { split; [done|]. repeat constructor. }
  split; [exact Hn|].
  exact (re_search_wait_complete "wait: " ", then retry" _ Hn).
Defined.

(** ** What the first loop collects (lines 70-76) *)

(** One pass appends the page it received, whole and in order, and nothing
    else; it sends one request, and sleeps once after it exactly when the
    loop goes on. *)
Lemma collector_body_collects (st : cstate) (resp : response) :
  all_questions (collector_body st resp).1.2
  = all_questions st ++ page_of resp ∧
  question_responses (collector_body st resp).2 = [resp] ∧
  beats (collector_body st resp).2 =
    match (collector_body st resp).1.1 with
    | Continue | Next => [true; false]
    | Break | Raise => [true]
    end.
Proof.
  unfold collector_body, page_of.
  destruct (status_code resp =? 200); simpl;
    repeat case_match; simplify_eq; simpl; by rewrite ?app_nil_r.
Qed.

Lemma question_responses_app (t1 t2 : list event) :
  question_responses (t1 ++ t2) = question_responses t1 ++ question_responses t2.
Proof. apply omap_app. Qed.

Lemma beats_app (t1 t2 : list event) : beats (t1 ++ t2) = beats t1 ++ beats t2.
Proof. apply omap_app. Qed.

(** The questions collected are the pages received, put end to end in the
    order received: nothing is dropped, reordered or added. *)
Theorem collector_collects_pages (fuel : nat) (srv : server) (n : nat) (st : cstate) :
  let r := collector_loop fuel srv n st in
  all_questions (final r)
  = all_questions st ++ concat (map page_of (question_responses (trace r))) ∧
  question_responses (trace r) = map srv (seq n (served r - n)) ∧
  (n ≤ served r ≤ n + fuel)%nat.
Proof.
  revert n st. induction fuel as [|fuel IH]; intros n st; cbv zeta.
  - simpl. rewrite app_nil_r, Nat.sub_diag. split; [done|]. split; [done|lia].
  - rewrite collector_loop_unfold.
    destruct (collector_body_collects st (srv n)) as (Hall & Hresp & _).
    destruct (collector_body st (srv n)) as [[sig st'] t]. simpl in Hall, Hresp.
    destruct (IH (S n) st') as (IH1 & IH2 & IH3).
    destruct sig; simpl.
    + rewrite question_responses_app, Hresp, IH1, IH2, Hall.
      replace (served (collector_loop fuel srv (S n) st') - n)%nat
        with (S (served (collector_loop fuel srv (S n) st') - S n)) by lia.
      simpl. rewrite <- app_assoc. split; [done|]. split; [done|lia].
    + rewrite question_responses_app, Hresp, IH1, IH2, Hall.
      replace (served (collector_loop fuel srv (S n) st') - n)%nat
        with (S (served (collector_loop fuel srv (S n) st') - S n)) by lia.
      simpl. rewrite <- app_assoc. split; [done|]. split; [done|lia].
    + rewrite Hresp, Hall. replace (S n - n)%nat with 1%nat by lia.
      simpl. rewrite app_nil_r. split; [done|]. split; [done|lia].
    + rewrite Hresp, Hall. replace (S n - n)%nat with 1%nat by lia.
      simpl. rewrite app_nil_r. split; [done|]. split; [done|lia].
Qed.

(** ** The rhythm of the first loop (lines 50-55, 88-92) *)

(** A loop that has ended consumed at least one response; one that is
    still going consumed one per pass. *)
Lemma collector_loop_served (fuel : nat) (srv : server) :
  ∀ n st,
    let r := collector_loop fuel srv n st in
    match ended r with
    | Looping => served r = (n + fuel)%nat
    | Completed | Aborted => (n < served r ≤ n + fuel)%nat
    end.
Proof.
  induction fuel as [|fuel IH]; intros n st; cbv zeta.
  - simpl. lia.
  - rewrite collector_loop_unfold.
    specialize (IH (S n) (collector_body st (srv n)).1.2).
    destruct (collector_body st (srv n)) as [[sig st'] t]. simpl in IH.
    destruct sig; simpl; try lia;
      destruct (ended (collector_loop fuel srv (S n) st')); lia.
Qed.

(** In the first loop requests and sleeps alternate: each request but the
    one that ends the loop is followed by exactly one sleep before the next
    request is sent. *)
Theorem collector_sleeps_between_requests
    (fuel : nat) (srv : server) (n : nat) (st : cstate) :
  let r := collector_loop fuel srv n st in
  beats (trace r) =
    match ended r with
    | Looping => concat (replicate (served r - n) [true; false])
    | Completed | Aborted =>
        concat (replicate (served r - S n) [true; false]) ++ [true]
    end.
Proof.
  revert n st. induction fuel as [|fuel IH]; intros n st; cbv zeta.
  - simpl. by rewrite Nat.sub_diag.
  - rewrite collector_loop_unfold.
    destruct (collector_body_collects st (srv n)) as (_ & _ & Hbeats).
    pose proof (collector_loop_served fuel srv (S n)
                  (collector_body st (srv n)).1.2) as Hserved.
    specialize (IH (S n) (collector_body st (srv n)).1.2).
    destruct (collector_body st (srv n)) as [[sig st'] t].
    simpl in Hbeats, Hserved, IH.
    destruct sig; simpl; rewrite ?beats_app, Hbeats, ?IH, ?Nat.sub_diag;
      try done;
      destruct (ended (collector_loop fuel srv (S n) st'));
      [ replace (served (collector_loop fuel srv (S n) st') - n)%nat
          with (S (served (collector_loop fuel srv (S n) st') - S n)) by lia
      | replace (served (collector_loop fuel srv (S n) st') - S n)%nat
          with (S (served (collector_loop fuel srv (S n) st') - S (S n))) by lia
      | replace (served (collector_loop fuel srv (S n) st') - S n)%nat
          with (S (served (collector_loop fuel srv (S n) st') - S (S n))) by lia
      | replace (served (collector_loop fuel srv (S n) st') - n)%nat
          with (S (served (collector_loop fuel srv (S n) st') - S n)) by lia
      | replace (served (collector_loop fuel srv (S n) st') - S n)%nat
          with (S (served (collector_loop fuel srv (S n) st') - S (S n))) by lia
      | replace (served (collector_loop fuel srv (S n) st') - S n)%nat
          with (S (served (collector_loop fuel srv (S n) st') - S (S n))) by lia ];
      done.
Qed.

(** ** Rate limits without end (lines 41-55) *)



(** ** Pages until the empty page (lines 70-92) *)

(** A page that is not empty, whose items all have a creation date, the
    oldest strictly below the cursor, and no [backoff]: the pass appends
    it, moves the cursor, counts the batch and sleeps half a second. *)
Lemma collector_body_page (st : cstate) (l : list jobj) (m : Z) :
  min_creation_date l = Some m →
  (∀ mk, marker st = Some mk → m < mk) →
  collector_body st (page l) =
    (Next,
     {| all_questions := all_questions st ++ l;
        marker := Some m;
        batch_num := S (batch_num st) |},
     [Print (MsgBatch (batch_num st) (question_params (marker st)));
      Get (GetQuestions (question_params (marker st))) (page l);
      Print (MsgRetrieved (length l));
      Sleep HalfSecond]).
Proof.
  intros Hmin Hlt. unfold collector_body. simpl.
  destruct l as [|x l]; [done|]. rewrite Hmin.
  destruct (marker st) as [mk|] eqn:Hmk; [|done].
  specialize (Hlt mk eq_refl).
  destruct (Z.leb_spec mk m); [lia|done].
Qed.

Lemma collector_pages_from (pages : list (list jobj)) :
  ∀ (ms : list Z) (srv : server) (n fuel : nat) (st : cstate),
    Forall2 (λ l m, min_creation_date l = Some m) pages ms →
    StronglySorted Z.gt ms →
    (∀ mk, marker st = Some mk → Forall (λ m, m < mk) ms) →
    (∀ i l, pages !! i = Some l → srv (n + i)%nat = page l) →
    srv (n + length pages)%nat = page [] →
    (length pages < fuel)%nat →
    let r := collector_loop fuel srv n st in
    ended r = Completed ∧
    all_questions (final r) = all_questions st ++ concat pages ∧
    marker (final r) = match last ms with
                       | Some m => Some m
                       | None => marker st
                       end ∧
    batch_num (final r) = (batch_num st + length pages)%nat ∧
    served r = S (n + length pages) ∧
    question_requests (trace r) =
      question_params (marker st) :: map (λ m, question_params (Some m)) ms ∧
    sleeps (trace r) = replicate (length pages) HalfSecond.
Proof.
  induction pages as [|l pages IH];
    intros ms srv n fuel st Hmin Hsorted Hbelow Hsrv Hlast Hfuel; cbv zeta.
  - apply Forall2_nil_inv_l in Hmin as ->.
    destruct fuel as [|fuel]; [simpl in Hfuel; lia|].
    rewrite collector_loop_unfold. simpl in Hlast.
    rewrite Nat.add_0_r in Hlast. rewrite Hlast. simpl.
    rewrite app_nil_r. split_and!; try done; f_equal; lia.
  - apply Forall2_cons_inv_l in Hmin as (m & ms' & Hl & Hmin & ->).
    destruct fuel as [|fuel]; [simpl in Hfuel; lia|].
    rewrite collector_loop_unfold.
    pose proof (Hsrv 0%nat l eq_refl) as H0.
    rewrite Nat.add_0_r in H0. rewrite H0.
    rewrite (collector_body_page st l m Hl).
    2:{ intros mk Hmk. specialize (Hbelow mk Hmk).
        by apply Forall_cons in Hbelow as [? _]. }
    apply StronglySorted_inv in Hsorted as [Hsorted Hhead].
    destruct (IH ms' srv (S n) fuel
                {| all_questions := all_questions st ++ l;
                   marker := Some m;
                   batch_num := S (batch_num st) |})
      as (H1 & H2 & H3 & H4 & H5 & H6 & H7); try done.
    + simpl. intros mk [= <-].
      eapply Forall_impl; [exact Hhead|]. simpl. intros; lia.
    + intros i l' Hi. replace (S n + i)%nat with (n + S i)%nat by lia.
      by apply Hsrv.
    + replace (S n + length pages)%nat with (n + length (l :: pages))%nat
        by (simpl; lia). done.
    + simpl in Hfuel. lia.
    + simpl in *. split_and!.
      * done.
      * by rewrite H2, <- app_assoc.
      * rewrite H3, last_cons. by destruct (last ms').
      * rewrite H4. lia.
      * rewrite H5. lia.
      * unfold question_requests in *. simpl. by rewrite H6.
      * unfold sleeps in *. simpl. by rewrite H7.
Qed.

(** When the server returns pages with strictly decreasing oldest creation
    dates and then an empty page, the first loop ends by itself after one
    request per page and one more for the empty page: it has collected all
    the pages in order, each request after the first asked for items up to
    one second before the cursor, and it slept half a second after each
    page. *)
Theorem collector_pages_until_empty
    (pages : list (list jobj)) (ms : list Z) (srv : server) (fuel : nat) :
  Forall2 (λ l m, min_creation_date l = Some m) pages ms →
  StronglySorted Z.gt ms →
  (∀ i l, pages !! i = Some l → srv i = page l) →
  srv (length pages) = page [] →
  (length pages < fuel)%nat →
  let r := collector_loop fuel srv 0%nat cstate_init in
  ended r = Completed ∧
  all_questions (final r) = concat pages ∧
  marker (final r) = last ms ∧
  served r = S (length pages) ∧
  map q_max (question_requests (trace r)) = None :: map (λ m, Some (m - 1)) ms ∧
  sleeps (trace r) = replicate (length pages) HalfSecond.
Proof.
  intros Hmin Hsorted Hsrv Hlast Hfuel.
  destruct (collector_pages_from pages ms srv 0 fuel cstate_init)
    as (H1 & H2 & H3 & _ & H5 & H6 & H7); try done.
  cbv zeta. split_and!; try done.
  - rewrite H3. simpl. by destruct (last ms).
  - rewrite H6. simpl. f_equal. by rewrite map_map.
Qed.

Lemma collector_pages_until_empty_witness :
  let pages := [[question 1 100 None; question 2 90 None];
                [question 3 80 None]; [question 4 70 None; question 5 60 None]] in
  let r := collector_loop 4 (scripted (map page pages)) 0%nat cstate_init in
  Forall2 (λ l m, min_creation_date l = Some m) pages [90; 80; 60] ∧
  StronglySorted Z.gt [90; 80; 60] ∧
  ended r = Completed ∧
  length (all_questions (final r)) = 5%nat ∧
  served r = 4%nat.
Proof.
  intros pages r.
  assert (Hmin : Forall2 (λ l m, min_creation_date l = Some m) pages [90; 80; 60])
    by (repeat constructor).
  assert (Hsorted : StronglySorted Z.gt [90; 80; 60])
    by (repeat constructor; lia).
  destruct (collector_pages_until_empty pages [90; 80; 60]
              (scripted (map page pages)) 4 Hmin Hsorted)
    as (H1 & H2 & _ & H4 & _).
  { intros i l Hi. destruct i as [|[|[|i]]]; simpl in Hi; by simplify_eq. }
  { reflexivity. }
  { simpl. lia. }
  split; [exact Hmin|]. split; [exact Hsorted|]. split; [exact H1|].
  split; [|exact H4]. fold r in H2. by rewrite H2.
Defined.

(** ** What the second loop records (lines 151-152) *)

Lemma record_answers_app (acc : gmap Z string) (l1 l2 : list jobj) :
  record_answers acc (l1 ++ l2) =
    if (record_answers acc l1).2
    then record_answers (record_answers acc l1).1 l2
    else record_answers acc l1.
Proof.
  revert acc. induction l1 as [|ans l1 IH]; intros acc; simpl; [done|].
  destruct (answer_id ans); [apply IH|done].
Qed.

(** After a list of answers is recorded, the mapping holds for each id the
    body of the last answer of the list with that id, and what it held
    before for the ids that are not in the list. *)
Lemma record_answers_lookup (l : list jobj) :
  ∀ (acc m : gmap Z string) (k : Z),
    record_answers acc l = (m, true) →
    m !! k = match last (filter (λ ans, answer_id ans = Some k) l) with
             | Some ans => Some (answer_body ans)
             | None => acc !! k
             end.
Proof.
  induction l as [|ans l IH]; intros acc m k; simpl.
  - by intros [= <-].
  - destruct (answer_id ans) as [k0|] eqn:Hid; [|done].
    intros H. rewrite (IH _ _ k H).
    rewrite filter_cons. destruct (decide (answer_id ans = Some k)) as [Hk|Hk].
    + rewrite last_cons. destruct (last _); [done|].
      assert (k0 = k) as -> by congruence.
      by rewrite lookup_insert_eq.
    + destruct (last _); [done|].
      rewrite lookup_insert_ne; [done|]. congruence.
Qed.

(** One pass of the second loop records the answers of the page it
    received, whichever slice it asked for; it ends by the exception
    exactly when recording stops at an answer without [answer_id], or the
    body is not an object, or [backoff] is negative. *)
Lemma resolver_body_records (acc : gmap Z string) (b : list Z) (resp : response) :
  (resolver_body acc b resp).1.2 = (record_answers acc (page_of resp)).1 ∧
  answer_responses (resolver_body acc b resp).2 = [resp] ∧
  ((resolver_body acc b resp).1.1 ≠ Raise →
   (record_answers acc (page_of resp)).2 = true).
Proof.
  unfold resolver_body, page_of.
  destruct (status_code resp =? 200); simpl.
  - destruct (json_of resp) as [| |data]; simpl; try done.
    destruct (record_answers acc (default [] (items data))) as [m [|]];
      simpl; [|done].
    repeat case_match; simplify_eq; done.
  - repeat case_match; simplify_eq; done.
Qed.

Lemma answer_responses_app (t1 t2 : list event) :
  answer_responses (t1 ++ t2) = answer_responses t1 ++ answer_responses t2.
Proof. apply omap_app. Qed.

(** A second loop that runs to its end has recorded, in order, every
    answer of every page it received. *)
Lemma resolver_loop_records (srv : server) (ids : list Z) (starts : list nat) :
  ∀ n acc,
    let r := resolver_loop srv n ids starts acc in
    ended r = Completed →
    record_answers acc (concat (map page_of (answer_responses (trace r))))
    = (final r, true).
Proof.
  induction starts as [|i rest IH]; intros n acc; cbv zeta; [done|].
  rewrite resolver_loop_unfold.
  destruct (resolver_body_records acc (slice ids i (i + batch_size)) (srv n))
    as (Hacc & Hresp & Hok).
  destruct (resolver_body_request acc (slice ids i (i + batch_size)) (srv n))
    as (sig & acc' & t & Hb & Hsig & _).
  rewrite Hb in *. simpl in Hacc, Hresp, Hok.
  destruct sig; simpl; try done; intros Hend.
  - rewrite answer_responses_app, Hresp. simpl.
    rewrite record_answers_app, Hok by done. rewrite <- Hacc. by apply IH.
  - rewrite answer_responses_app, Hresp. simpl.
    rewrite record_answers_app, Hok by done. rewrite <- Hacc. by apply IH.
Qed.

Lemma resolver_lookup (srv : server) (n : nat) (ids : list Z) (k : Z) :
  ended (resolver srv n ids) = Completed →
  final (resolver srv n ids) !! k =
    answer_body <$>
      last (filter (λ ans, answer_id ans = Some k)
              (concat (map page_of
                 (answer_responses (trace (resolver srv n ids)))))).
Proof.
  intros Hend. unfold resolver in *.
  pose proof (resolver_loop_records srv ids _ n ∅ Hend) as H.
  rewrite (record_answers_lookup _ _ _ k H).
  destruct (last _); [done|]. apply lookup_empty.
Qed.

(** When the resolver stage runs to its end, the mapping it returns holds
    for each id the body of the last answer with that id among all the
    pages received, in the order received, whether or not the id was asked
    for; an id that no page returned is not in the mapping. *)
Theorem resolver_records_last_answer (srv : server) (n : nat) (ids : list Z) (k : Z) :
  let r := resolver srv n ids in
  ended r = Completed →
  final r !! k =
    answer_body <$>
      last (filter (λ ans, answer_id ans = Some k)
              (concat (map page_of (answer_responses (trace r))))).
Proof.
  intros r Hend. by apply resolver_lookup.
Qed.

Lemma resolver_records_last_answer_witness :
  let srv := scripted [page [answer 9 (Some "first"%string); answer 5 None;
                             answer 9 (Some "second"%string)]] in
  let r := resolver srv 0 [9] in
  ended r = Completed ∧
  final r !! 9 = Some "second"%string ∧
  final r !! 5 = Some EmptyString ∧
  final r !! 7 = None.
Proof.
  intros srv r.
  assert (He : ended r = Completed) by reflexivity.
  split; [exact He|].
  rewrite !(resolver_records_last_answer srv 0 [9] _ He).
  split_and!; reflexivity.
Defined.

(** ** The dictionary of accepted answers (lines 103-104) *)

Lemma dict_set_fresh (d : list (Z * Z)) (k v : Z) :
  k ∉ map fst d → dict_set d k v = d ++ [(k, v)].
Proof.
  induction d as [|[k' v'] d IH]; simpl; [done|].
  intros Hk. apply not_elem_of_cons in Hk as [Hne Hk].
  destruct (Z.eqb_spec k' k); [congruence|]. by rewrite IH.
Qed.

(** Assigning to a key that is there replaces its value where it stands:
    the dictionary keeps its length and the order of its keys. *)
Lemma dict_set_present (d : list (Z * Z)) (k v : Z) :
  k ∈ map fst d →
  map fst (dict_set d k v) = map fst d ∧
  length (dict_set d k v) = length d ∧
  (k, v) ∈ dict_set d k v.
Proof.
  induction d as [|[k' v'] d IH]; simpl.
  - intros H. by apply elem_of_nil in H.
  - intros H. destruct (Z.eqb_spec k' k) as [->|Hne]; simpl.
    + split; [done|]. split; [done|]. by left.
    + apply elem_of_cons in H as [?|H]; [congruence|].
      destruct (IH H) as (-> & -> & Hin). split; [done|]. split; [done|].
      by right.
Qed.

(** Line 103 raises [KeyError] exactly when some question has an accepted
    answer but no [question_id]. *)
Lemma accepted_ids_from_none (questions : list jobj) :
  ∀ d,
    accepted_ids_from d questions = None ↔
    ∃ q, q ∈ questions ∧ is_Some (accepted_answer_id q) ∧ question_id q = None.
Proof.
  induction questions as [|q qs IH]; intros d; simpl.
  - split; [done|]. intros (q & H & _). by apply elem_of_nil in H.
  - destruct (accepted_answer_id q) as [a|] eqn:Ha.
    + destruct (question_id q) as [k|] eqn:Hk.
      * rewrite IH. split.
        -- intros (q' & Hin & H). exists q'. split; [by right|done].
        -- intros (q' & Hin & Hs & Hn).
           apply elem_of_cons in Hin as [->|Hin]; [congruence|].
           by exists q'.
      * split; [|done]. intros _. exists q.
        split; [by left|]. split; [by rewrite Ha|done].
    + rewrite IH. split.
      * intros (q' & Hin & H). exists q'. split; [by right|done].
      * intros (q' & Hin & Hs & Hn).
        apply elem_of_cons in Hin as [->|Hin].
        -- rewrite Ha in Hs. by destruct Hs.
        -- by exists q'.
Qed.

(** A collected question that has an accepted answer but no [question_id]
    makes line 103 raise: the program ends there, after printing the total,
    without a request for answers and without a file.  No other list of
    questions makes line 103 raise. *)
Theorem missing_question_id_aborts_run (fuel : nat) (srv : server) :
  let c := collector_loop fuel srv 0%nat cstate_init in
  let o := main fuel srv in
  (accepted_ids (all_questions (final c)) = None ↔
   ∃ q, q ∈ all_questions (final c) ∧
        is_Some (accepted_answer_id q) ∧ question_id q = None) ∧
  (ended c = Completed →
   accepted_ids (all_questions (final c)) = None →
   how o = Crashed ∧ csv o = None ∧ answer_batches (output o) = [] ∧
   last (output o) = Some (Print (MsgTotal (length (all_questions (final c)))))).
Proof.
  intros c o. split; [apply accepted_ids_from_none|].
  intros Hc Hd. subst o. unfold main. fold c. rewrite Hc.
  pose proof (collector_loop_no_answer_requests fuel srv 0 cstate_init) as Hn.
  fold c in Hn.
  destruct (all_questions (final c)) as [|q qs] eqn:Hq; [done|].
  rewrite Hd. simpl. split_and!; try done.
  - change (answer_batches
              (trace c ++ [Print (MsgTotal (S (length qs)))]) = []).
    by rewrite answer_batches_app, Hn.
  - change (last ((Print MsgRetrievingQuestions :: trace c)
                  ++ [Print (MsgTotal (S (length qs)))])
            = Some (Print (MsgTotal (S (length qs))))).
    apply last_snoc.
Qed.

Lemma missing_question_id_aborts_run_witness :
  let orphan := {| question_id := None; creation_date := Some 100;
                   accepted_answer_id := Some 9; answer_id := None;
                   title := None; body := None; tags := None;
                   is_answered := None |} in
  let srv := scripted [page [orphan]] in
  ended (collector_loop 2 srv 0%nat cstate_init) = Completed ∧
  accepted_ids (all_questions (final (collector_loop 2 srv 0%nat cstate_init)))
    = None ∧
  how (main 2 srv) = Crashed ∧ csv (main 2 srv) = None.
Proof.
  intros orphan srv.
  assert (Hc : ended (collector_loop 2 srv 0%nat cstate_init) = Completed)
    by reflexivity.
  assert (Hd : accepted_ids
                 (all_questions (final (collector_loop 2 srv 0%nat cstate_init)))
               = None) by reflexivity.
  destruct (missing_question_id_aborts_run 2 srv) as [_ H].
  destruct (H Hc Hd) as (H1 & H2 & _).
  split; [exact Hc|]. split; [exact Hd|]. split; [exact H1|exact H2].
Defined.

Lemma accepted_ids_from_distinct (questions : list jobj) :
  ∀ d,
    NoDup (map question_id questions) →
    (∀ q, q ∈ questions → is_Some (accepted_answer_id q) →
          ∃ k, question_id q = Some k ∧ k ∉ map fst d) →
    ∃ d', accepted_ids_from d questions = Some (d ++ d') ∧
          map snd d' = omap accepted_answer_id questions.
Proof.
  induction questions as [|q qs IH]; intros d Hnd Hfresh; simpl.
  - exists []. by rewrite app_nil_r.
  - apply NoDup_cons in Hnd as [Hq Hnd].
    destruct (accepted_answer_id q) as [a|] eqn:Ha.
    + destruct (Hfresh q ltac:(by left) ltac:(by rewrite Ha))
        as (k & Hk & Hkd).
      rewrite Hk, (dict_set_fresh d k a Hkd).
      destruct (IH (d ++ [(k, a)]) Hnd) as (d' & -> & Hd').
      * intros q' Hq' Hs.
        destruct (Hfresh q' ltac:(by right) Hs) as (k' & Hk' & Hkd').
        exists k'. split; [done|].
        rewrite map_app. simpl. intros Hin.
        apply elem_of_app in Hin as [?|Hin]; [done|].
        apply list_elem_of_singleton in Hin as ->.
        apply Hq. rewrite Hk, <- Hk'.
        apply list_elem_of_fmap. by exists q'.
      * exists ((k, a) :: d'). rewrite <- app_assoc. split; [done|].
        simpl. by rewrite Hd'.
    + apply IH; [done|]. intros q' Hq' Hs. apply Hfresh; [by right|done].
Qed.

(** When no two collected questions have the same id, and each one with an
    accepted answer has an id, the ids handed to the second loop are the
    accepted-answer ids of the questions, in the order collected. *)
Theorem accepted_answer_ids_in_order (questions : list jobj) :
  NoDup (map question_id questions) →
  (∀ q, q ∈ questions → is_Some (accepted_answer_id q) →
        is_Some (question_id q)) →
  ∃ d, accepted_ids questions = Some d ∧
       dict_values d = omap accepted_answer_id questions.
Proof.
  intros Hnd Hid.
  destruct (accepted_ids_from_distinct questions [] Hnd) as (d & Hd & Hv).
  - intros q Hq Hs. destruct (Hid q Hq Hs) as [k Hk].
    exists k. split; [done|]. apply not_elem_of_nil.
  - exists d. split; [exact Hd|exact Hv].
Qed.

Lemma accepted_answer_ids_in_order_witness :
  let questions := [question 1 100 (Some 9); question 2 90 None;
                    question 3 80 (Some 4)] in
  NoDup (map question_id questions) ∧
  ∃ d, accepted_ids questions = Some d ∧ dict_values d = [9; 4].
Proof.
  intros questions.
  assert (Hnd : NoDup (map question_id questions)) by compute_done.
  split; [exact Hnd|].
  destruct (accepted_answer_ids_in_order questions Hnd) as (d & Hd & Hv).
  { intros q Hq _. in_list Hq; subst; by eexists. }
  exists d. split; [exact Hd|exact Hv].
Defined.



(** ** The file as a whole (lines 94-199) *)

Lemma collector_loop_no_answer_responses
    (fuel : nat) (srv : server) (n : nat) (st : cstate) :
  answer_responses (trace (collector_loop fuel srv n st)) = [].
Proof.
  revert n st. induction fuel as [|fuel IH]; intros n st; [done|].
  rewrite collector_loop_unfold.
  destruct (collector_body_request st (srv n))
    as (sig & st' & rest & -> & _ & Hrest).
  assert (Hr : answer_responses rest = []).
  { clear -Hrest. induction rest as [|e rest IH]; [done|].
    destruct e as [m|[p|b p] resp|d]; simpl in *; try by apply IH.
    discriminate Hrest. }
  destruct sig; simpl;
    by rewrite ?(answer_responses_app rest), ?IH, ?Hr.
Qed.

(** The ways [main] reaches its last line. *)
Lemma main_done (fuel : nat) (srv : server) :
  let c := collector_loop fuel srv 0%nat cstate_init in
  let o := main fuel srv in
  how o = Done →
  ∃ d,
    ended c = Completed ∧
    all_questions (final c) ≠ [] ∧
    accepted_ids (all_questions (final c)) = Some d ∧
    let r := resolver srv (served c) (dict_values d) in
    ended r = Completed ∧
    csv o = Some (write_csv (all_questions (final c)) (final r)) ∧
    output o =
      (Print MsgRetrievingQuestions :: trace c)
      ++ [Print (MsgTotal (length (all_questions (final c))))]
      ++ Print MsgRetrievingAnswers :: trace r
      ++ [Print (MsgFinishedAnswers (size (final r)));
          Print (MsgCsvCreated (length (all_questions (final c))))].
Proof.
  intros c o. subst o. unfold main. fold c.
  destruct (ended c); [done| |done].
  destruct (all_questions (final c)) as [|q qs] eqn:Hq; [done|].
  destruct (accepted_ids (q :: qs)) as [d|] eqn:Hd; [|done].
  pose proof (resolver_loop_batches srv (dict_values d)
                (py_range (length (dict_values d)) batch_size)
                (served c) ∅) as (_ & _ & Hnl & _).
  fold (resolver srv (served c) (dict_values d)) in Hnl.
  destruct (ended (resolver srv (served c) (dict_values d))) eqn:He;
    [done| |done].
  intros _. exists d. split_and!; try done.
  simpl. by rewrite <- !app_assoc.
Qed.

Lemma main_csv_done (fuel : nat) (srv : server) :
  is_Some (csv (main fuel srv)) ↔ how (main fuel srv) = Done.
Proof.
  unfold main.
  destruct (ended (collector_loop fuel srv 0 cstate_init)); simpl;
    try (split; [by intros [? ?]|done]).
  destruct (all_questions _); simpl; try (split; [by intros [? ?]|done]).
  destruct (accepted_ids _); simpl; try (split; [by intros [? ?]|done]).
  destruct (ended _); simpl; try (split; [by intros [? ?]|done]);
    split; try done; by eexists.
Qed.

(** A file is written exactly when the program reaches its last line, and
    then it has the header and at least one row, as many rows as the total
    printed on line 94 and as the count printed last, on line 199. *)
Theorem file_written_iff_done (fuel : nat) (srv : server) :
  let c := collector_loop fuel srv 0%nat cstate_init in
  let o := main fuel srv in
  (is_Some (csv o) ↔ how o = Done) ∧
  ∀ file,
    csv o = Some file →
    header file = csv_fieldnames ∧
    rows file ≠ [] ∧
    length (rows file) = length (all_questions (final c)) ∧
    Print (MsgTotal (length (rows file))) ∈ output o ∧
    last (output o) = Some (Print (MsgCsvCreated (length (rows file)))).
Proof.
  intros c o.
  pose proof (main_csv_done fuel srv) as Hiff. fold o in Hiff.
  split; [exact Hiff|].
  intros file Hfile.
  assert (Hdone : how o = Done) by (apply Hiff; by eexists).
  destruct (main_done fuel srv Hdone) as (d & Hc & Hq & Hd & Hr & Hcsv & Hout).
  fold c o in Hq, Hd, Hr, Hcsv, Hout.
  rewrite Hcsv in Hfile. injection Hfile as <-. simpl.
  rewrite length_map. split_and!; try done.
  - destruct (all_questions (final c)); done.
  - rewrite Hout, !elem_of_app. right. left. by left.
  - rewrite Hout, last_app, last_app, last_cons, last_app. done.
Qed.

Lemma file_written_iff_done_witness :
  let srv := scripted [page [question 1 100 (Some 9); question 2 90 None];
                       page [];
                       page [answer 9 (Some "<p>use nltk</p>"%string)]] in
  ∃ file, csv (main 3 srv) = Some file ∧
          how (main 3 srv) = Done ∧ length (rows file) = 2%nat.
Proof.
  intros srv.
  destruct (file_written_iff_done 3 srv) as [Hiff Hfile].
  assert (Hd : how (main 3 srv) = Done) by reflexivity.
  destruct (proj2 Hiff Hd) as [file Hf].
  exists file. split; [exact Hf|]. split; [exact Hd|].
  destruct (Hfile file Hf) as (_ & _ & Hlen & _). exact Hlen.
Defined.

(** In the file, the accepted-answer column of a question is the body of
    the last answer with the question's accepted-answer id that the server
    returned to the second loop, and it is empty when the question has no
    accepted answer or the server returned no answer with that id. *)
Theorem rows_join_returned_answers (fuel : nat) (srv : server) (file : csv_file) :
  let c := collector_loop fuel srv 0%nat cstate_init in
  let o := main fuel srv in
  let returned := concat (map page_of (answer_responses (output o))) in
  csv o = Some file →
  ∀ (i : nat) (q : jobj),
    all_questions (final c) !! i = Some q →
    ∃ r, rows file !! i = Some r ∧
         Title r = default EmptyString (title q) ∧
         Description r = default EmptyString (body q) ∧
         Accepted_Answer r =
           match accepted_answer_id q with
           | Some a =>
               match last (filter (λ ans, answer_id ans = Some a) returned) with
               | Some ans => answer_body ans
               | None => EmptyString
               end
           | None => EmptyString
           end.
Proof.
  intros c o returned Hfile i q Hq.
  assert (Hdone : how o = Done) by (apply main_csv_done; by eexists).
  destruct (main_done fuel srv Hdone) as (d & Hc & Hne & Hd & Hr & Hcsv & Hout).
  fold c o in Hne, Hd, Hr, Hcsv, Hout.
  rewrite Hcsv in Hfile. injection Hfile as <-.
  exists (row_of (final (resolver srv (served c) (dict_values d))) q).
  split; [simpl; by rewrite list_lookup_fmap, Hq|].
  split; [done|]. split; [done|].
  assert (Hret : returned
                 = concat (map page_of
                     (answer_responses
                        (trace (resolver srv (served c) (dict_values d)))))).
  { subst returned. rewrite Hout.
    change (Print MsgRetrievingQuestions :: trace c)
      with ([Print MsgRetrievingQuestions] ++ trace c).
    change (Print MsgRetrievingAnswers
            :: trace (resolver srv (served c) (dict_values d)) ++ ?x)
      with ([Print MsgRetrievingAnswers]
            ++ trace (resolver srv (served c) (dict_values d)) ++ x).
    rewrite !answer_responses_app.
    unfold c. rewrite collector_loop_no_answer_responses. simpl.
    by rewrite app_nil_r. }
  unfold row_of. simpl.
  destruct (accepted_answer_id q) as [a|]; [|done].
  rewrite (resolver_lookup srv (served c) (dict_values d) a Hr).
  rewrite <- Hret. by destruct (last _).
Qed.

Lemma rows_join_returned_answers_witness :
  let srv := scripted [page [question 1 100 (Some 9); question 2 90 (Some 4)];
                       page [];
                       page [answer 9 (Some "<p>use nltk</p>"%string)]] in
  ∃ file r1 r2,
    csv (main 3 srv) = Some file ∧
    rows file !! 0%nat = Some r1 ∧
    Accepted_Answer r1 = "<p>use nltk</p>"%string ∧
    rows file !! 1%nat = Some r2 ∧
    Accepted_Answer r2 = EmptyString.
Proof.
  intros srv.
  assert (Hf : csv (main 3 srv)
               = Some (write_csv [question 1 100 (Some 9); question 2 90 (Some 4)]
                         {[ 9 := "<p>use nltk</p>"%string ]})) by reflexivity.
  destruct (rows_join_returned_answers 3 srv _ Hf 0%nat
              (question 1 100 (Some 9)) eq_refl) as (r1 & H1 & _ & _ & A1).
  destruct (rows_join_returned_answers 3 srv _ Hf 1%nat
              (question 2 90 (Some 4)) eq_refl) as (r2 & H2 & _ & _ & A2).
  eexists _, r1, r2. split; [exact Hf|].
  split; [exact H1|]. split; [exact A1|]. split; [exact H2|exact A2].
Defined.

(** ** The new cursor (line 79) *)

Lemma fold_left_min_attained (ds : list Z) (d : Z) :
  fold_left Z.min ds d ∈ d :: ds.
Proof.
  revert d. induction ds as [|x ds IH]; intros d; simpl; [by left|].
  specialize (IH (Z.min d x)).
  apply elem_of_cons in IH as [->|IH]; [|right; by right].
  destruct (Z.min_spec d x) as [[_ ->]|[_ ->]]; [by left|right; by left].
Qed.

Lemma creation_dates_some (l : list jobj) (ds : list Z) :
  creation_dates l = Some ds → map creation_date l = map Some ds.
Proof.
  revert ds. induction l as [|x l IH]; intros ds; simpl.
  - by intros [= <-].
  - destruct (creation_date x) as [d|]; [|done].
    destruct (creation_dates l) as [ds'|]; [|done].
    intros [= <-]. simpl. by rewrite (IH ds').
Qed.

Lemma min_creation_date_iff (l : list jobj) :
  (∀ m, min_creation_date l = Some m ↔
        (∃ item, item ∈ l ∧ creation_date item = Some m) ∧
        Forall (λ item, ∃ d, creation_date item = Some d ∧ m ≤ d) l) ∧
  (min_creation_date l = None ↔
   l = [] ∨ ∃ item, item ∈ l ∧ creation_date item = None).
Proof.
  assert (Hattained : ∀ m, min_creation_date l = Some m →
            ∃ item, item ∈ l ∧ creation_date item = Some m).
  { intros m. unfold min_creation_date.
    destruct (creation_dates l) as [ds|] eqn:Hd; [|done].
    apply creation_dates_some in Hd.
    destruct ds as [|d ds]; [done|]. simpl. intros [= <-].
    pose proof (fold_left_min_attained ds d) as Hin.
    assert (Hin' : Some (fold_left Z.min ds d) ∈ map creation_date l).
    { rewrite Hd. apply list_elem_of_fmap. eauto. }
    apply list_elem_of_fmap in Hin' as (item & Hi & Hin').
    by exists item. }
  assert (Hnone : min_creation_date l = None ↔
                  l = [] ∨ ∃ item, item ∈ l ∧ creation_date item = None).
  { split.
    - intros H. destruct l as [|x l]; [by left|]. right.
      by apply min_creation_date_none.
    - intros [->|H]; [done|]. unfold min_creation_date.
      by rewrite (creation_dates_missing l H). }
  split; [|exact Hnone].
  intros m. split.
  - intros H. split; [by apply Hattained|by apply min_creation_date_le].
  - intros [(item & Hin & Hm) Hall].
    destruct (min_creation_date l) as [m'|] eqn:Hmin in |- *.
    + f_equal.
      destruct (Hattained m' Hmin) as (item' & Hin' & Hm').
      pose proof (min_creation_date_le l m' Hmin) as Hall'.
      rewrite Forall_forall in Hall, Hall'.
      destruct (Hall item' Hin') as (d1 & Hd1 & Hle1).
      destruct (Hall' item Hin) as (d2 & Hd2 & Hle2).
      assert (d1 = m') by congruence. assert (d2 = m) by congruence. lia.
    + apply Hnone in Hmin as [->|(x & Hx & Hnd)].
      * by apply elem_of_nil in Hin.
      * rewrite Forall_forall in Hall.
        destruct (Hall x Hx) as (d & Hd & _). congruence.
Qed.

(** The value computed on line 79 is the creation date of an item of the
    page, and no item of the page is older; there is no value exactly when
    the page is empty or an item has no creation date. *)
Theorem min_creation_date_spec (l : list jobj) :
  (∀ m, min_creation_date l = Some m ↔
        (∃ item, item ∈ l ∧ creation_date item = Some m) ∧
        Forall (λ item, ∃ d, creation_date item = Some d ∧ m ≤ d) l) ∧
  (min_creation_date l = None ↔
   l = [] ∨ ∃ item, item ∈ l ∧ creation_date item = None).
Proof. apply min_creation_date_iff. Qed.

Lemma min_creation_date_spec_witness :
  let l := [question 1 100 None; question 2 60 None; question 3 80 None] in
  min_creation_date l = Some 60 ∧
  Forall (λ item, ∃ d, creation_date item = Some d ∧ 60 ≤ d) l.
Proof.
  intros l.
  assert (H : min_creation_date l = Some 60) by reflexivity.
  split; [exact H|].
  exact (proj2 (proj1 (proj1 (min_creation_date_spec l) 60) H)).
Defined.

(** ** The order of the collected questions (lines 36-37, 76-84) *)

Lemma successful_page_of (resp : response) (l : list jobj) :
  successful_page resp l → page_of resp = l.
Proof.
  intros (Hs & data & Hj & <-). unfold page_of.
  by rewrite Hs, Hj.
Qed.

Lemma collector_body_keeps_order
    (st st' : cstate) (resp : response) (sig : signal) (t : list event) :
  collector_body st resp = (sig, st', t) →
  order_inv st →
  within_max (question_params (marker st)) resp →
  StronglySorted not_older (page_of resp) →
  StronglySorted not_older (all_questions st') ∧
  (sig = Continue ∨ sig = Next → order_inv st').
Proof.
  intros Hb [Hsorted Hinv] Hmax Hpage.
  destruct (collector_body_collects st resp) as (Hall & _).
  rewrite Hb in Hall. simpl in Hall.
  assert (Hs' : StronglySorted not_older (all_questions st')).
  { rewrite Hall. apply StronglySorted_app_2; [|done|done].
    intros x y Hx Hy.
    destruct (marker st) as [m|] eqn:Hm;
      [|rewrite Hinv in Hx; by apply elem_of_nil in Hx].
    rewrite Forall_forall in Hinv. destruct (Hinv x Hx) as (dx & Hdx & Hge).
    specialize (Hmax (m - 1) eq_refl). rewrite Forall_forall in Hmax.
    destruct (Hmax y Hy) as (dy & Hdy & Hle).
    exists dx, dy. split; [done|]. split; [done|lia]. }
  split; [done|]. intros [-> | ->].
  - apply collector_body_continue in Hb as [-> _]. by split.
  - apply collector_body_next in Hb
      as (l & new_marker & Hsucc & _ & Hmin & -> & Hlt & _).
    split; [done|]. simpl. apply Forall_app. split.
    + destruct (marker st) as [m|] eqn:Hm; [|by rewrite Hinv].
      specialize (Hlt m eq_refl).
      eapply Forall_impl; [exact Hinv|]. simpl.
      intros item (d & Hd & Hge). exists d. split; [done|lia].
    + by apply min_creation_date_le.
Qed.

Lemma collector_loop_keeps_order (fuel : nat) (srv : server) :
  ∀ n st,
    let r := collector_loop fuel srv n st in
    order_inv st →
    served_newest_first (trace r) →
    StronglySorted not_older (all_questions (final r)).
Proof.
  induction fuel as [|fuel IH]; intros n st; cbv zeta.
  - by intros [H _] _.
  - rewrite collector_loop_unfold.
    destruct (collector_body st (srv n)) as [[sig st'] t] eqn:Hb.
    destruct (collector_body_request st (srv n))
      as (sig0 & st0 & rest & Hb0 & _). rewrite Hb in Hb0.
    injection Hb0 as _ _ Ht.
    assert (Hget : Get (GetQuestions (question_params (marker st))) (srv n) ∈ t).
    { rewrite Ht. right. by left. }
    intros Hinv Hserved.
    assert (Hthis : within_max (question_params (marker st)) (srv n) ∧
                    StronglySorted not_older (page_of (srv n))).
    { apply Hserved. destruct sig; simpl; try done;
        apply elem_of_app; by left. }
    destruct Hthis as [Hmax Hpage].
    destruct (collector_body_keeps_order _ _ _ _ _ Hb Hinv Hmax Hpage)
      as [Hs' Hinv'].
    destruct sig; simpl in *; try done.
    + apply IH; [apply Hinv'; by left|].
      intros p r Hin. apply Hserved, elem_of_app. by right.
    + apply IH; [apply Hinv'; by right|].
      intros p r Hin. apply Hserved, elem_of_app. by right.
Qed.

(** The script does not sort: the collected list is newest first when the
    server returns each page newest first and within the [max] of the
    request.  Then every question of a later page is older than every
    question of an earlier one. *)
Theorem collector_newest_first (fuel : nat) (srv : server) :
  let r := collector_loop fuel srv 0%nat cstate_init in
  served_newest_first (trace r) →
  StronglySorted not_older (all_questions (final r)).
Proof.
  intros r. apply collector_loop_keeps_order.
  split; [constructor|done].
Qed.

Lemma collector_newest_first_witness :
  let srv := scripted [page [question 1 100 None; question 2 90 None];
                       throttled "available in 2 seconds";
                       page [question 3 50 None];
                       page []] in
  let r := collector_loop 5 srv 0%nat cstate_init in
  served_newest_first (trace r) ∧
  map creation_date (all_questions (final r)) = [Some 100; Some 90; Some 50] ∧
  StronglySorted not_older (all_questions (final r)).
Proof.
  intros srv r.
  assert (Hs : served_newest_first (trace r)).
  { intros params resp Hin. vm_compute in Hin. in_list Hin;
      injection Hin as -> ->; (split; [intros m Hm|]);
      try discriminate Hm; try injection Hm as <-;
      unfold page_of; simpl; repeat constructor;
      try (eexists; split; [reflexivity|lia]).
    eexists _, _. split; [reflexivity|]. split; [reflexivity|lia]. }
  split; [exact Hs|]. split; [reflexivity|].
  exact (collector_newest_first 5 srv Hs).
Defined.

(** ** The cursor and the questions collected (lines 76-85) *)

(** One pass that does not end by an exception keeps the cursor at the
    oldest creation date collected. *)
Lemma collector_body_keeps_oldest
    (st st' : cstate) (resp : response) (sig : signal) (t : list event) :
  collector_body st resp = (sig, st', t) →
  sig ≠ Raise →
  oldest_inv st → oldest_inv st'.
Proof.
  intros Hb Hsig Hinv. destruct sig; [| | |done].
  - by apply collector_body_continue in Hb as [-> _].
  - apply collector_body_next in Hb
      as (l & new_marker & _ & _ & Hmin & -> & Hlt & _).
    destruct (proj1 (proj1 (min_creation_date_iff l) new_marker) Hmin)
      as [(item & Hin & Hd) Hall].
    unfold oldest_inv in *. simpl. split.
    + exists item. split; [|done]. apply elem_of_app. by right.
    + apply Forall_app. split; [|done].
      destruct (marker st) as [m|] eqn:Hm; [|by rewrite Hinv].
      destruct Hinv as [_ Hold]. specialize (Hlt m eq_refl).
      eapply Forall_impl; [exact Hold|]. simpl.
      intros x (d & Hx & Hge). exists d. split; [done|lia].
  - pose proof (collector_body_break_marker _ _ _ _ Hb) as Hmk.
    destruct (collector_body_collects st resp) as (Hall & _).
    rewrite Hb in Hall. simpl in Hall.
    apply collector_body_break in Hb as [Hf|[Hr|[He|Hst]]].
    + assert (Hp : page_of resp = []).
      { unfold page_of. destruct Hf as [[Hs _]|[Hs Hj]].
        - by rewrite (not_success_test _ Hs).
        - by rewrite Hs, Hj. }
      rewrite Hp, app_nil_r in Hall. unfold oldest_inv. by rewrite Hmk, Hall.
    + assert (Hp : page_of resp = []).
      { unfold page_of. destruct Hr as (msg & (Hs & _) & _).
        by rewrite (not_success_test _ Hs). }
      rewrite Hp, app_nil_r in Hall. unfold oldest_inv. by rewrite Hmk, Hall.
    + rewrite (successful_page_of _ _ He), app_nil_r in Hall.
      unfold oldest_inv. by rewrite Hmk, Hall.
    + destruct Hst as (l & new_marker & m & Hl & Hmin & Hm & Hle).
      rewrite (successful_page_of _ _ Hl) in Hall.
      unfold oldest_inv in *. rewrite Hmk, Hm, Hall. rewrite Hm in Hinv.
      destruct Hinv as [(item & Hin & Hd) Hold]. split.
      * exists item. split; [|done]. apply elem_of_app. by left.
      * apply Forall_app. split; [done|].
        eapply Forall_impl; [exact (min_creation_date_le _ _ Hmin)|]. simpl.
        intros x (d & Hx & Hge). exists d. split; [done|lia].
Qed.

Lemma collector_loop_keeps_oldest (fuel : nat) (srv : server) :
  ∀ n st,
    let r := collector_loop fuel srv n st in
    ended r ≠ Aborted → oldest_inv st → oldest_inv (final r).
Proof.
  induction fuel as [|fuel IH]; intros n st; cbv zeta; [done|].
  rewrite collector_loop_unfold.
  destruct (collector_body st (srv n)) as [[sig st'] t] eqn:Hb.
  pose proof (collector_body_keeps_oldest _ _ _ _ _ Hb) as Hstep.
  destruct sig; simpl; intros Hend Hinv; try done.
  - apply IH; [done|]. by apply Hstep.
  - apply IH; [done|]. by apply Hstep.
  - by apply Hstep.
Qed.

Lemma collector_loop_batch_num (fuel : nat) (srv : server) :
  ∀ n st,
    let r := collector_loop fuel srv n st in
    ended r ≠ Aborted →
    batch_num (final r)
    = (batch_num st + length (markers_set fuel srv n st))%nat.
Proof.
  induction fuel as [|fuel IH]; intros n st; cbv zeta; [simpl; lia|].
  rewrite collector_loop_unfold, markers_set_unfold.
  destruct (collector_body st (srv n)) as [[sig st'] t] eqn:Hb.
  destruct sig; simpl; intros Hend; try done.
  - apply collector_body_continue in Hb as [-> _]. by apply IH.
  - apply collector_body_next in Hb
      as (l & new_marker & _ & _ & _ & -> & _). simpl.
    rewrite IH by done. simpl. lia.
  - unfold collector_body in Hb.
    repeat case_match; simplify_eq; simpl; lia.
Qed.

(** Whatever the server returns, as long as no exception ends the loop the
    cursor is the oldest creation date among the questions collected so
    far: line 79 computed over everything collected gives [marker].  So a
    request never asks again for the dates it has covered, and the batch
    counter has counted the pages that moved the cursor, not the
    requests. *)
Theorem cursor_is_oldest_collected (fuel : nat) (srv : server) :
  let r := collector_loop fuel srv 0%nat cstate_init in
  ended r ≠ Aborted →
  min_creation_date (all_questions (final r)) = marker (final r) ∧
  batch_num (final r) = S (length (markers_set fuel srv 0%nat cstate_init)).
Proof.
  intros r Hend. subst r. split.
  - pose proof (collector_loop_keeps_oldest fuel srv 0 cstate_init Hend) as H.
    specialize (H eq_refl). unfold oldest_inv in H.
    destruct (marker (final (collector_loop fuel srv 0 cstate_init))) as [m|].
    + by apply (min_creation_date_iff
                  (all_questions (final (collector_loop fuel srv 0 cstate_init)))).
    + by rewrite H.
  - by rewrite (collector_loop_batch_num fuel srv 0 cstate_init Hend).
Qed.

Lemma cursor_is_oldest_collected_witness :
  let srv := scripted [page [question 1 100 None; question 2 90 None];
                       throttled "available in 2 seconds";
                       page [question 3 95 None; question 4 92 None]] in
  let r := collector_loop 5 srv 0%nat cstate_init in
  ended r = Completed ∧
  marker (final r) = Some 90 ∧
  min_creation_date (all_questions (final r)) = Some 90 ∧
  batch_num (final r) = 2%nat.
Proof.
  intros srv r.
  assert (He : ended r = Completed) by reflexivity.
  destruct (cursor_is_oldest_collected 5 srv) as [Hmin Hbatch].
  { fold r. rewrite He. discriminate. }
  split; [exact He|]. split; [reflexivity|].
  split; [|exact Hbatch]. fold r in Hmin. rewrite Hmin. reflexivity.
Defined.

(** ** The message of the API *)




(** ** A rate limit in the second loop, in general (lines 125-136) *)


